(** * Discussion-Group: the TTS audio path

    A shallow embedding of
    - [audioBufferToWav] and [generateTTS] of [src/services/gemini.ts],
    - the playback handlers of the resource view ([handlePlayTTS],
      [handleStopTTS]) and of the announcement view ([handlePlayTTS]),
    and the properties of the specification that concern them; then of
    - [generateStudyGuide] and [transcribeAudio],
    - the chat view ([handleSubmit], dictation),
    - the resource view as a whole (navigation, search, deletion, study
      guides), [renderMarkdown] of both views,
    - the upload view (the queue, [handleDrop], [handleUploadAll]),
    with further properties of the code. *)

From Stdlib Require Import ZArith QArith Lia Lqa Ascii.
From stdpp Require Import base option list strings gmap.

Local Open Scope Z_scope.

(** ** Thrown values and the error monad

    A JavaScript call either returns or throws.  The values thrown on the
    paths modelled here are [Error] objects (a [DOMException], a
    [RangeError], a [TypeError], [new Error(...)]): a name and a message
    string, which may be empty. *)

Record Error : Type := mkError { name : string; message : string }.

Inductive result (A : Type) : Type :=
| Ok (a : A)
| Throw (e : Error).
Arguments Ok {A} a.
Arguments Throw {A} e.

#[global] Instance result_ret : MRet result := λ A, Ok.
#[global] Instance result_bind : MBind result := λ A B f m,
  match m with
  | Ok a => f a
  | Throw e => Throw e
  end.

Definition RangeError : Error :=
  mkError "RangeError" "Offset is outside the bounds of the DataView".
Definition TypeError : Error :=
  mkError "TypeError" "Cannot read properties of undefined".
Definition IndexSizeError : Error :=
  mkError "IndexSizeError" "The index is not in the allowed range".
(** Not a JavaScript error: the marker of a loop of the model that has used
    up its fuel.  [while_frames_cursor] shows that the fuel the encoder
    gives its loop is enough. *)
Definition FuelExhausted : Error := mkError "FuelExhausted" EmptyString.

(** ** DataView over an ArrayBuffer

    The buffer is the list of its bytes, each a [Z] in [0, 256).  All
    accesses of the encoder are little-endian ([littleEndian = true]). *)

Module DataView.

(** The [n] low-order bytes of [v], least significant first.  On a
    negative [v] the bit operations of [Z] give the two's complement
    bytes, which is the modular conversion (ToUint16, ToUint32, ToInt16)
    that the setters apply to their argument. *)
Fixpoint le_bytes (n : nat) (v : Z) : list Z :=
  match n with
  | O => []
  | S n' => Z.land v 255 :: le_bytes n' (Z.shiftr v 8)
  end.

(** The setters throw a RangeError when the access does not fit. *)
Definition setBytes (n : nat) (byteOffset : nat) (value : Z)
    (buf : list Z) : result (list Z) :=
  if decide (byteOffset + n ≤ length buf)%nat
  then Ok (list_inserts byteOffset (le_bytes n value) buf)
  else Throw RangeError.

Definition setUint16 := setBytes 2.
Definition setUint32 := setBytes 4.
Definition setInt16 := setBytes 2.

(** Readers, used to state what the output holds. *)
Definition le_unsigned (bs : list Z) : Z :=
  foldr (λ b acc, b + 256 * acc) 0 bs.

Definition slice (byteOffset n : nat) (buf : list Z) : list Z :=
  take n (drop byteOffset buf).

Definition getUint16 (byteOffset : nat) (buf : list Z) : Z :=
  le_unsigned (slice byteOffset 2 buf).
Definition getUint32 (byteOffset : nat) (buf : list Z) : Z :=
  le_unsigned (slice byteOffset 4 buf).
Definition getInt16 (byteOffset : nat) (buf : list Z) : Z :=
  let u := getUint16 byteOffset buf in
  if u <? 32768 then u else u - 65536.

(** The bytes of an ASCII string. *)
Definition ascii_bytes (s : string) : list Z :=
  (λ c, Z.of_nat (Ascii.nat_of_ascii c)) <$> String.list_ascii_of_string s.

End DataView.

(** ** AudioBuffer *)

Module AudioBuffer.

(** The attributes the encoder reads.  A channel is a Float32Array; a
    finite float32 is a dyadic rational, and for samples of magnitude at
    most 1 every operation the encoder performs on it (comparison, the
    sum with 0.5 that is only compared with 0, the product with 32767 or
    32768) is exact in binary64, so samples are modelled in [Q]. *)
Record t : Type := mk {
  numberOfChannels : nat;
  length : nat;
  sampleRate : Z;
  channelData : list (list Q)
}.

(** [buffer.getChannelData(i)] throws IndexSizeError off range. *)
Definition getChannelData (b : t) (i : nat) : result (list Q) :=
  match channelData b !! i with
  | Some ch => Ok ch
  | None => Throw IndexSizeError
  end.

(** The encoder's precondition: C >= 1 channels, R > 0, and every channel
    holds N samples. *)
Definition valid (b : t) : Prop :=
  (1 ≤ numberOfChannels b)%nat ∧
  0 < sampleRate b ∧
  List.length (channelData b) = numberOfChannels b ∧
  Forall (λ ch, List.length ch = length b) (channelData b).

End AudioBuffer.

(** ** The WAV encoder *)

Module Wav.
Import DataView.

(** [Math.min] and [Math.max] on finite numbers. *)
Definition Math_min (a b : Q) : Q := if Qle_bool a b then a else b.
Definition Math_max (a b : Q) : Q := if Qle_bool a b then b else a.

(** [a < b] *)
Definition Qlt_bool (a b : Q) : bool := negb (Qle_bool b a).

(** [x | 0]: ToInt32, truncation toward zero and wrap to 32 bits. *)
Definition trunc (x : Q) : Z := Z.quot (Qnum x) (Z.pos (Qden x)).
Definition ToInt32 (x : Q) : Z :=
  (trunc x + 2 ^ 31) mod 2 ^ 32 - 2 ^ 31.

(** [Math.max(-1, Math.min(1, s))] *)
Definition clamp (s : Q) : Q := Math_max (-1) (Math_min 1 s).

(** Lines 142-143 on one element [channels[i][pos]].  Off the end of the
    channel the element is [undefined]: [Math.min] gives NaN, the
    comparison is false, the product is NaN and [NaN | 0] is 0. *)
Definition quantize (x : option Q) : Z :=
  match x with
  | None => 0
  | Some s =>
      let sample := clamp s in
      ToInt32 (if Qlt_bool (0.5 + sample) 0
               then sample * 32768
               else sample * 32767)%Q
  end.

(** The variables the closures [setUint16], [setUint32] and the loop
    share. *)
Record enc : Type := mkEnc {
  view : list Z;
  pos : nat;
  offset : nat
}.

(** [function setUint16(data) { view.setUint16(pos, data, true); pos += 2 }] *)
Definition setUint16 (data : Z) (s : enc) : result enc :=
  v ← DataView.setUint16 (pos s) data (view s);
  Ok (mkEnc v (pos s + 2) (offset s)).

(** [function setUint32(data) { view.setUint32(pos, data, true); pos += 4 }] *)
Definition setUint32 (data : Z) (s : enc) : result enc :=
  v ← DataView.setUint32 (pos s) data (view s);
  Ok (mkEnc v (pos s + 4) (offset s)).

(** The body of the inner [for], lines 142-145. *)
Definition write_sample (channels : list (list Q)) (i : nat) (s : enc)
    : result enc :=
  match channels !! i with
  | None => Throw TypeError
  | Some ch =>
      let sample := quantize (ch !! pos s) in
      v ← DataView.setInt16 (44 + offset s) sample (view s);
      Ok (mkEnc v (pos s) (offset s + 2))
  end.

(** [for (i = 0; i < numOfChan; i++) body], over the indices in order. *)
Fixpoint for_each (body : nat → enc → result enc) (idx : list nat)
    (s : enc) : result enc :=
  match idx with
  | [] => Ok s
  | i :: idx' => s' ← body i s; for_each body idx' s'
  end.

(** One turn of the [while]: the inner [for], then [pos++]. *)
Definition frame (numOfChan : nat) (channels : list (list Q)) (s : enc)
    : result enc :=
  s' ← for_each (write_sample channels) (seq 0 numOfChan) s;
  Ok (mkEnc (view s') (pos s' + 1) (offset s')).

(** [while (pos < buffer.length) { ... }], lines 140-148. *)
Fixpoint while_frames (fuel : nat) (len numOfChan : nat)
    (channels : list (list Q)) (s : enc) : result enc :=
  if bool_decide (pos s < len)%nat then
    match fuel with
    | O => Throw FuelExhausted
    | S fuel' =>
        s' ← frame numOfChan channels s;
        while_frames fuel' len numOfChan channels s'
    end
  else Ok s.

(** The header, lines 120-134.  The argument of the last call reads
    [pos] as the calls before it have left it. *)
Definition write_header (numOfChan : nat) (length : nat) (sampleRate : Z)
    (s : enc) : result enc :=
  s ← setUint32 0x46464952 s;
  s ← setUint32 (Z.of_nat length - 8) s;
  s ← setUint32 0x45564157 s;
  s ← setUint32 0x20746d66 s;
  s ← setUint32 16 s;
  s ← setUint16 1 s;
  s ← setUint16 (Z.of_nat numOfChan) s;
  s ← setUint32 sampleRate s;
  s ← setUint32 (sampleRate * 2 * Z.of_nat numOfChan) s;
  s ← setUint16 (Z.of_nat numOfChan * 2) s;
  s ← setUint16 16 s;
  s ← setUint32 0x61746164 s;
  setUint32 (Z.of_nat length - Z.of_nat (pos s) - 44) s.

Record Blob : Type := mkBlob { blob_bytes : list Z; blob_type : string }.

Definition audioBufferToWav (buffer : AudioBuffer.t) : result Blob :=
  let numOfChan := AudioBuffer.numberOfChannels buffer in
  let length := (AudioBuffer.length buffer * numOfChan * 2 + 44)%nat in
  let s := mkEnc (replicate length 0) 0 0 in
  s ← write_header numOfChan length (AudioBuffer.sampleRate buffer) s;
  channels ← mapM (AudioBuffer.getChannelData buffer)
                  (seq 0 (AudioBuffer.numberOfChannels buffer));
  s ← while_frames (AudioBuffer.length buffer) (AudioBuffer.length buffer)
                   numOfChan channels s;
  Ok (mkBlob (view s) "audio/wav").

End Wav.

(** ** The layout of the output *)

Module WavLayout.
Import DataView Wav.

(** The 44 header bytes the code writes for [numOfChan] channels, a total
    length [length] and a sample rate [sampleRate].  The last field is
    computed where [pos] is 40. *)
Definition header_bytes (numOfChan length : nat) (sampleRate : Z) : list Z :=
  le_bytes 4 0x46464952 ++ le_bytes 4 (Z.of_nat length - 8) ++
  le_bytes 4 0x45564157 ++ le_bytes 4 0x20746d66 ++
  le_bytes 4 16 ++ le_bytes 2 1 ++ le_bytes 2 (Z.of_nat numOfChan) ++
  le_bytes 4 sampleRate ++ le_bytes 4 (sampleRate * 2 * Z.of_nat numOfChan) ++
  le_bytes 2 (Z.of_nat numOfChan * 2) ++ le_bytes 2 16 ++
  le_bytes 4 0x61746164 ++ le_bytes 4 (Z.of_nat length - 40 - 44).

(** The bytes of frame [p]: one 16-bit sample per channel, in order. *)
Definition frame_bytes (channels : list (list Q)) (p : nat) : list Z :=
  channels ≫= λ ch, le_bytes 2 (quantize (ch !! p)).

(** The bytes of the frames [p], [p+1], ..., [p+n-1]. *)
Definition frames_bytes (channels : list (list Q)) (p n : nat) : list Z :=
  seq p n ≫= frame_bytes channels.

End WavLayout.

(** ** The quantization rule, as specified and as amended *)

Module QuantizationRule.
Import Wav.

(** The rule in the words of the specification: clamp to [-1,1], scale a
    negative value by 32768 and a non-negative one by 32767, truncate
    toward zero. *)
Definition clamp_spec (s : Q) : Q :=
  if Qlt_bool s (-1) then -1 else if Qlt_bool 1 s then 1 else s.

Definition quantize_spec (s : Q) : Z :=
  let c := clamp_spec s in
  trunc (if Qlt_bool c 0 then c * 32768 else c * 32767)%Q.

(** The rule of the code: the scale 32768 applies below -1/2 only. *)
Definition quantize_amended (s : Q) : Z :=
  let c := clamp_spec s in
  trunc (if Qlt_bool c (-(1 # 2)) then c * 32768 else c * 32767)%Q.

End QuantizationRule.

(** ** generateTTS *)

Module Tts.

(** [interface TTSResponse { audioUrl?: string; error?: string }] *)
Record TTSResponse : Type := mkTTSResponse {
  audioUrl : option string;
  error : option string
}.

(** A string-valued expression in a condition: [undefined] and the empty
    string are falsy. *)
Definition truthy (v : option string) : option string :=
  match v with
  | Some EmptyString => None
  | _ => v
  end.

Section GenerateTTS.
(** The external calls, each by its outcome.  [generateContent] is the
    awaited request, reduced to what the optional chain
    [response.candidates?.[0]?.content?.parts?.[0]?.inlineData?.data]
    reads from its response.  [decode] and [decodeAudioData] are the
    helpers of [./audioUtils]. *)
Variable generateContent : string → result (option string).
Variable newAudioContext : Z → result unit.
Variable decode : string → result (list Z).
Variable decodeAudioData :
  list Z → unit → Z → nat → result AudioBuffer.t.
Variable createObjectURL : Wav.Blob → result string.

(** The [try] block, lines 13-43. *)
Definition generateTTS_try (text : string) : result TTSResponse :=
  data ← generateContent text;
  base64Audio ← match truthy data with
                | None => Throw (mkError "Error" "No audio data returned")
                | Some d => Ok d
                end;
  outputAudioContext ← newAudioContext 24000;
  bytes ← decode base64Audio;
  audioBuffer ← decodeAudioData bytes outputAudioContext 24000 1%nat;
  wavBlob ← Wav.audioBufferToWav audioBuffer;
  url ← createObjectURL wavBlob;
  Ok (mkTTSResponse (Some url) None).

(** [error.message || "Failed to generate speech"] *)
Definition error_message (e : Error) : string :=
  match truthy (Some (message e)) with
  | Some m => m
  | None => "Failed to generate speech"
  end.

(** The whole function: the [catch] turns a thrown error into a
    response.  The result type keeps the possibility of a throw, to
    state that there is none. *)
Definition generateTTS (text : string) : result TTSResponse :=
  match generateTTS_try text with
  | Ok r => Ok r
  | Throw e => Ok (mkTTSResponse None (Some (error_message e)))
  end.

End GenerateTTS.

End Tts.

(** ** Audio elements

    Every [new Audio(url)] of a view is kept, in creation order; an element
    is referred to by its index, so that [currentAudioRef] and the
    callbacks name the element itself. *)

Module Audio.

Record t : Type := mk {
  src : string;
  paused : bool;
  generated : bool  (* created on the path that follows a generation *)
}.

Definition pause (x : t) : t := mk (src x) true (generated x).

(** [new Audio(url)] followed by [audio.play()] *)
Definition playing (url : string) (gen : bool) : t := mk url false gen.

(** The element of index [a] exists and is playing: its stream is
    active. *)
Definition is_playing (l : list t) (a : nat) : bool :=
  match l !! a with
  | Some x => negb (paused x)
  | None => false
  end.

End Audio.

(** ** The resource view's playback handlers *)

Module ResourceView.
Import Tts.

(** The fields of a [Resource] the handlers read. *)
Record Resource : Type := mkResource { id : string; data : string }.

(** The TTS state of the component, the audio elements it has created,
    the [generateTTS] calls it awaits (with the resource each handler
    closed over) and the alerts it has shown.  [audioCache] is an object
    used as a map from document ids to URLs; the property names it
    inherits from [Object.prototype] are not document ids. *)
Record state : Type := mkState {
  playingResourceId : option string;
  generatingAudioId : option string;
  audioCache : gmap string string;
  currentAudioRef : option nat;
  audios : list Audio.t;
  pending : list Resource;
  alerts : list string
}.

Definition init : state := mkState None None ∅ None [] [] [].

(** [handleStopTTS], lines 140-147.  The reset of [currentTime] has no
    counterpart: an element is playing or it is not. *)
Definition handleStopTTS (s : state) : state :=
  match currentAudioRef s with
  | Some a =>
      mkState None (generatingAudioId s) (audioCache s) None
              (alter Audio.pause a (audios s)) (pending s) (alerts s)
  | None =>
      mkState None (generatingAudioId s) (audioCache s) None
              (audios s) (pending s) (alerts s)
  end.

(** Create an element for [url], make it the current one, mark the
    resource as playing and play: lines 165-168 and 189-192. *)
Definition start (rid url : string) (gen : bool) (s : state) : state :=
  mkState (Some rid) (generatingAudioId s) (audioCache s)
          (Some (length (audios s)))
          (audios s ++ [Audio.playing url gen]) (pending s) (alerts s).

(** Lines 163-183: play from the cache, or mark the resource as
    generating and call [generateTTS], whose result is awaited. *)
Definition play_or_generate (resource : Resource) (s : state) : state :=
  match truthy (audioCache s !! id resource) with
  | Some url => start (id resource) url false s
  | None =>
      mkState (playingResourceId s) (Some (id resource)) (audioCache s)
              (currentAudioRef s) (audios s) (pending s ++ [resource])
              (alerts s)
  end.

(** [handlePlayTTS] up to its [await], lines 149-183. *)
Definition handlePlayTTS (resource : Resource) (s : state) : state :=
  if bool_decide (playingResourceId s = Some (id resource)) then
    handleStopTTS s
  else
    let s := match currentAudioRef s with
             | Some _ => handleStopTTS s
             | None => s
             end in
    play_or_generate resource s.

(** [`TTS Error: ${error}`] *)
Definition tts_error (r : TTSResponse) : string :=
  "TTS Error: " +:+ default "undefined" (error r).

(** [handlePlayTTS] from the result of the [await] on, lines 185-204. *)
Definition handlePlayTTS_resume (resource : Resource) (r : TTSResponse)
    (s : state) : state :=
  let s := mkState (playingResourceId s) None (audioCache s)
                   (currentAudioRef s) (audios s) (pending s) (alerts s) in
  match truthy (audioUrl r) with
  | Some url =>
      let s := mkState (playingResourceId s) (generatingAudioId s)
                       (<[id resource := url]> (audioCache s))
                       (currentAudioRef s) (audios s) (pending s)
                       (alerts s) in
      start (id resource) url true s
  | None =>
      mkState (playingResourceId s) (generatingAudioId s) (audioCache s)
              (currentAudioRef s) (audios s) (pending s)
              (alerts s ++ [tts_error r])
  end.

(** [audio.onended] of both paths; the element has stopped. *)
Definition onended (a : nat) (s : state) : state :=
  mkState None (generatingAudioId s) (audioCache s) None
          (alter Audio.pause a (audios s)) (pending s) (alerts s).

(** [audio.onerror]: as [onended], with the alert of the element's path. *)
Definition onerror (a : nat) (x : Audio.t) (s : state) : state :=
  mkState None (generatingAudioId s) (audioCache s) None
          (alter Audio.pause a (audios s)) (pending s)
          (alerts s ++ [if Audio.generated x
                        then "Error playing generated audio."
                        else "Error playing audio."]).

(** [disabled={generatingAudioId === res.id}] on the button. *)
Definition disabled (s : state) (resource : Resource) : bool :=
  bool_decide (generatingAudioId s = Some (id resource)).

(** What can happen to the component: a click on the button of a
    resource, the [k]-th awaited call resolving with a response, an
    element that is playing reaching its end or failing. *)
Inductive event : Type :=
| Click (resource : Resource)
| Resolve (k : nat) (r : TTSResponse)
| Ended (a : nat)
| Failed (a : nat).

Definition step (s : state) (e : event) : state :=
  match e with
  | Click resource =>
      if disabled s resource then s else handlePlayTTS resource s
  | Resolve k r =>
      match pending s !! k with
      | Some resource =>
          handlePlayTTS_resume resource r
            (mkState (playingResourceId s) (generatingAudioId s)
                     (audioCache s) (currentAudioRef s) (audios s)
                     (delete k (pending s)) (alerts s))
      | None => s
      end
  | Ended a =>
      if Audio.is_playing (audios s) a then onended a s else s
  | Failed a =>
      match audios s !! a with
      | Some x => if Audio.paused x then s else onerror a x s
      | None => s
      end
  end.

Definition run (evs : list event) (s : state) : state := foldl step s evs.

(** The states of the specification's controller. *)
Definition Idle (s : state) : Prop :=
  playingResourceId s = None ∧ generatingAudioId s = None.

(** Every stream that is active is the one [currentAudioRef] holds. *)
Definition only_current (s : state) : Prop :=
  ∀ a, Audio.is_playing (audios s) a = true → currentAudioRef s = Some a.

Definition at_most_one_active (s : state) : Prop :=
  ∀ a b, Audio.is_playing (audios s) a = true →
         Audio.is_playing (audios s) b = true → a = b.

(** [currentAudioRef] holds an element that exists. *)
Definition wf (s : state) : Prop :=
  ∀ a, currentAudioRef s = Some a → (a < length (audios s))%nat.

End ResourceView.

(** ** The announcement view's playback handler *)

Module AnnouncementView.
Import Tts.

(** The fields of an [Announcement] the handler reads. *)
Record Announcement : Type :=
  mkAnnouncement { id : string; title : string; content : string }.

Record state : Type := mkState {
  playingId : option string;
  audioMap : gmap string string;
  audios : list Audio.t;
  pending : list Announcement;
  alerts : list string
}.

Definition init : state := mkState None ∅ [] [] [].

(** [handlePlayTTS] up to its [await], lines 57-71. *)
Definition handlePlayTTS (item : Announcement) (s : state) : state :=
  if bool_decide (playingId s = Some (id item)) then s
  else
    match truthy (audioMap s !! id item) with
    | Some url =>
        mkState (Some (id item)) (audioMap s)
                (audios s ++ [Audio.playing url false]) (pending s)
                (alerts s)
    | None =>
        mkState (Some (id item)) (audioMap s) (audios s)
                (pending s ++ [item]) (alerts s)
    end.

Definition tts_error (r : TTSResponse) : string :=
  "TTS Error: " +:+ default "undefined" (error r).

(** [handlePlayTTS] from the result of the [await] on, lines 73-82. *)
Definition handlePlayTTS_resume (item : Announcement) (r : TTSResponse)
    (s : state) : state :=
  match truthy (audioUrl r) with
  | Some url =>
      mkState (playingId s) (<[id item := url]> (audioMap s))
              (audios s ++ [Audio.playing url true]) (pending s) (alerts s)
  | None =>
      mkState None (audioMap s) (audios s) (pending s)
              (alerts s ++ [tts_error r])
  end.

(** [audio.onended] and [audio.onerror]: [setPlayingId(null)]. *)
Definition onended (a : nat) (s : state) : state :=
  mkState None (audioMap s) (alter Audio.pause a (audios s)) (pending s)
          (alerts s).
Definition onerror := onended.

(** [disabled={playingId === item.id}] on the button. *)
Definition disabled (s : state) (item : Announcement) : bool :=
  bool_decide (playingId s = Some (id item)).

Inductive event : Type :=
| Click (item : Announcement)
| Resolve (k : nat) (r : TTSResponse)
| Ended (a : nat)
| Failed (a : nat).

Definition step (s : state) (e : event) : state :=
  match e with
  | Click item => if disabled s item then s else handlePlayTTS item s
  | Resolve k r =>
      match pending s !! k with
      | Some item =>
          handlePlayTTS_resume item r
            (mkState (playingId s) (audioMap s) (audios s)
                     (delete k (pending s)) (alerts s))
      | None => s
      end
  | Ended a => if Audio.is_playing (audios s) a then onended a s else s
  | Failed a => if Audio.is_playing (audios s) a then onerror a s else s
  end.

Definition run (evs : list event) (s : state) : state := foldl step s evs.

(** The states of the specification's controller: the view has the one
    variable [playingId] for both Generating and Playing. *)
Definition Idle (s : state) : Prop := playingId s = None.

Definition at_most_one_active (s : state) : Prop :=
  ∀ a b, Audio.is_playing (audios s) a = true →
         Audio.is_playing (audios s) b = true → a = b.

End AnnouncementView.

(** ** Inputs used in the examples *)

Definition sample_buffer : AudioBuffer.t :=
  AudioBuffer.mk 1 4 24000 [[0; 0.5; -0.5; 1]%Q].

(** One channel, 45 frames, every sample -0.5. *)
Definition half_buffer : AudioBuffer.t :=
  AudioBuffer.mk 1 45 24000 [replicate 45 (-0.5)%Q].

Definition ok (url : string) : Tts.TTSResponse :=
  Tts.mkTTSResponse (Some url) None.

Definition rA := ResourceView.mkResource "A" "text of A".
Definition rB := ResourceView.mkResource "B" "text of B".
Definition aA := AnnouncementView.mkAnnouncement "A" "Title A" "Body A".
Definition aB := AnnouncementView.mkAnnouncement "B" "Title B" "Body B".

(** The resource view playing A: A was requested and generated. *)
Definition resource_playing_A : ResourceView.state :=
  ResourceView.run
    [ResourceView.Click rA; ResourceView.Resolve 0 (ok "blob:1")]
    ResourceView.init.


(** The announcement view playing A, and awaiting the generation of A. *)
Definition announcement_playing_A : AnnouncementView.state :=
  AnnouncementView.run
    [AnnouncementView.Click aA; AnnouncementView.Resolve 0 (ok "blob:1")]
    AnnouncementView.init.

(** ** generateStudyGuide and transcribeAudio *)

Module Gemini.
Import Tts.

(** A part of the contents of a request. *)
Inductive Part : Type :=
| inlineData (mimeType : string) (data : option string)
| textPart (text : string).

(** What the two functions pass to [ai.models.generateContent]. *)
Record Request : Type := mkRequest {
  model : string;
  contents : list Part;
  systemInstruction : option string;
  googleSearch : bool
}.

(** What they read from the response: [response.text], and
    [response.candidates?.[0]?.groundingMetadata?.groundingChunks]. *)
Record Response (Chunk : Type) : Type := mkResponse {
  response_text : option string;
  groundingChunks : option (list Chunk)
}.
Arguments mkResponse {Chunk}.
Arguments response_text {Chunk}.
Arguments groundingChunks {Chunk}.

(** [{ text: string; sources: any[] }] *)
Record StudyGuide (Chunk : Type) : Type := mkStudyGuide {
  text : string;
  sources : list Chunk
}.
Arguments mkStudyGuide {Chunk}.
Arguments text {Chunk}.
Arguments sources {Chunk}.

(** The line feed of the template literals. *)
Definition nl : string := String "010"%char EmptyString.

Definition systemPrompt : string :=
  "You are an expert Clinical Medicine tutor. Analyze the provided resource (e.g., objectives or past papers) and generate a comprehensive, highly relevant study guide in Markdown format. The guide should include a brief introduction, 3-5 key concepts derived from the content, and 3 high-yield study questions based on the material. Use clear headings and lists. Keep the total output concise, professional, and directly useful for medical students.".

Section Calls.
Variable Chunk : Type.
(** The awaited request, by its outcome. *)
Variable generateContent : Request → result (Response Chunk).

(** [generateStudyGuide], lines 50-72. *)
Definition generateStudyGuide (resourceContent : string)
    : result (StudyGuide Chunk) :=
  let attempt :=
    response ← generateContent
      (mkRequest "gemini-2.5-flash"
         [textPart ("Generate a high-yield study guide based on the following resource content:"
                    +:+ nl +:+ "---" +:+ nl +:+ resourceContent +:+ nl +:+ "---")]
         (Some systemPrompt) true);
    let text := default "No content generated." (truthy (response_text response)) in
    let sources := default [] (groundingChunks response) in
    Ok (mkStudyGuide text sources) in
  match attempt with
  | Ok g => Ok g
  | Throw e =>
      Ok (mkStudyGuide "Error generating study guide. Please try again." [])
  end.

(** [transcribeAudio], lines 74-97: the [catch] logs and throws the error
    again.  The caller may pass [undefined] for the audio. *)
Definition transcribeAudio (base64Audio : option string) (mimeType : string)
    : result string :=
  let attempt :=
    response ← generateContent
      (mkRequest "gemini-2.5-flash"
         [inlineData mimeType base64Audio;
          textPart "Transcribe the following audio exactly as spoken. Do not add any commentary."]
         None false);
    Ok (default EmptyString (truthy (response_text response))) in
  match attempt with
  | Ok t => Ok t
  | Throw e => Throw e
  end.

End Calls.

End Gemini.

(** ** The chat view: sending a message, and dictation *)

Module ChatView.
Import Tts.

Inductive Role : Type := user | model.

(** [interface Message]; [isStreaming] is optional. *)
Record Message : Type := mkMessage {
  msg_id : string;
  role : Role;
  msg_text : string;
  isStreaming : option bool
}.

(** The state of the component; [hasSession] tells whether
    [chatSessionRef.current] is set. *)
Record state : Type := mkState {
  messages : list Message;
  input : string;
  isLoading : bool;
  isRecording : bool;
  isTranscribing : bool;
  hasSession : bool
}.

Definition init : state :=
  mkState
    [mkMessage "welcome" model
       "Hello! I'm your AI Clinical Tutor. How can I help you with your medical studies today?"
       None]
    EmptyString false false false true.





(** [base64String.split(',')[1]]: the piece between the first comma and the
    next one, [undefined] without a comma. *)
Fixpoint until_comma (s : string) : string * option string :=
  match s with
  | EmptyString => (EmptyString, None)
  | String c s' =>
      if Ascii.eqb c ","%char then (EmptyString, Some s')
      else let '(piece, rest) := until_comma s' in (String c piece, rest)
  end.

Definition split_1 (s : string) : option string :=
  match snd (until_comma s) with
  | Some rest => Some (fst (until_comma rest))
  | None => None
  end.

(** A string without a comma. *)
Fixpoint comma_free (s : string) : bool :=
  match s with
  | EmptyString => true
  | String c s' => negb (Ascii.eqb c ","%char) && comma_free s'
  end.


Section Handlers.
(** [String.prototype.trim] and [Number.prototype.toString]. *)
Variable trim : string → string.
Variable toString : Z → string.


(** [mediaRecorder.onstop], up to the reader's callback: line 117. *)
Definition onstop (s : state) : state :=
  mkState (messages s) (input s) (isLoading s) (isRecording s) true
          (hasSession s).

(** [setInput(prev => (prev ? prev + ' ' + text : text).trim())] *)
Definition append_dictation (text : string) (prev : string) : string :=
  trim (match truthy (Some prev) with
        | Some p => p +:+ " " +:+ text
        | None => text
        end).

(** [reader.onloadend], lines 121-130, for the data URL read and the outcome
    of [transcribeAudio].  The callback has no [try] of its own: when
    [transcribeAudio] throws, the promise of the callback rejects and the
    rest of it does not run. *)
Definition onloadend (base64String : string)
    (transcribeAudio : option string → string → result string) (s : state)
    : state :=
  let base64 := split_1 base64String in
  match transcribeAudio base64 "audio/webm" with
  | Throw _ => s
  | Ok text =>
      let input' := match truthy (Some text) with
                    | Some t => append_dictation t (input s)
                    | None => input s
                    end in
      mkState (messages s) input' (isLoading s) (isRecording s) false
              (hasSession s)
  end.

End Handlers.

End ChatView.

(** ** The resource view: navigation, search, deletion, study guides *)

Module ResourceNav.
Import Tts.

(** ['unit' | 'type' | 'list' | 'search'] *)
Inductive Step : Type := step_unit | step_type | step_list | step_search.

#[global] Instance Step_eq_dec : EqDecision Step.
Proof. solve_decision. Defined.

(** [interface Resource], without its timestamp. *)
Record Resource : Type := mkResource {
  r_id : string;
  r_unit : string;
  r_type : string;
  r_title : string;
  r_data : string;
  r_uploadedBy : string
}.

(** The resource as the TTS handlers read it. *)
Definition tts_resource (r : Resource) : ResourceView.Resource :=
  ResourceView.mkResource (r_id r) (r_data r).

(** [s.includes(sub)] *)
Fixpoint includes (s sub : string) : bool :=
  String.prefix sub s ||
  match s with
  | EmptyString => false
  | String _ s' => includes s' sub
  end.

Section Component.
Variable Chunk : Type.
(** [String.prototype.trim], [String.prototype.toLowerCase], and the sort
    of line 52, [items.sort((a, b) => a.title.localeCompare(b.title))]. *)
Variable trim : string → string.
Variable toLowerCase : string → string.
Variable sortByTitle : list Resource → list Resource.

(** [{ id: string, text: string, sources: any[] }] *)
Record AiOutput : Type := mkAiOutput {
  ai_id : string;
  ai_text : string;
  ai_sources : list Chunk
}.

Record state : Type := mkState {
  step : Step;
  selectedUnit : string;
  selectedType : string;
  resources : list Resource;
  loading : bool;
  searchQuery : string;
  generatingId : option string;
  aiOutput : option AiOutput;
  tts : ResourceView.state
}.

Definition init : state :=
  mkState step_unit EmptyString EmptyString [] false EmptyString None None
          ResourceView.init.

(** [handleUnitSelect], lines 89-93. *)
Definition handleUnitSelect (unitKey : string) (s : state) : state :=
  mkState step_type unitKey (selectedType s) (resources s) (loading s)
          EmptyString (generatingId s) (aiOutput s) (tts s).

(** [handleTypeSelect], lines 95-99, with [fetchResources] up to its
    [await]. *)
Definition handleTypeSelect (typeKey : string) (s : state) : state :=
  mkState step_list (selectedUnit s) typeKey (resources s) true
          (searchQuery s) (generatingId s) (aiOutput s) (tts s).

(** [fetchResources] from the result of its [await] on, lines 50-57. *)
Definition fetchResources_settle (outcome : result (list Resource))
    (s : state) : state :=
  match outcome with
  | Ok items =>
      mkState (step s) (selectedUnit s) (selectedType s) (sortByTitle items)
              false (searchQuery s) (generatingId s) (aiOutput s) (tts s)
  | Throw _ =>
      mkState (step s) (selectedUnit s) (selectedType s) (resources s)
              false (searchQuery s) (generatingId s) (aiOutput s) (tts s)
  end.

(** [performSearch] up to its [await], lines 60-71. *)
Definition performSearch (s : state) : state :=
  if bool_decide (trim (searchQuery s) = EmptyString) then s
  else
    mkState step_search (selectedUnit s) (selectedType s) (resources s) true
            (searchQuery s) (generatingId s) None (tts s).

(** The test of the filter of lines 76-79. *)
Definition matches (lowerQ : string) (item : Resource) : bool :=
  includes (toLowerCase (r_title item)) lowerQ ||
  includes (toLowerCase (r_data item)) lowerQ.

(** [performSearch] from the result of its [await] on, lines 72-86, for the
    query the handler closed over. *)
Definition performSearch_settle (query : string)
    (outcome : result (list Resource)) (s : state) : state :=
  match outcome with
  | Ok items =>
      let lowerQ := toLowerCase query in
      mkState (step s) (selectedUnit s) (selectedType s)
              (filter (λ item, matches lowerQ item = true) items)
              false (searchQuery s) (generatingId s) (aiOutput s) (tts s)
  | Throw _ =>
      mkState (step s) (selectedUnit s) (selectedType s) (resources s)
              false (searchQuery s) (generatingId s) (aiOutput s) (tts s)
  end.

(** The audio part of [handleBack], lines 103-107. *)
Definition back_audio (t : ResourceView.state) : ResourceView.state :=
  match ResourceView.currentAudioRef t with
  | Some a =>
      ResourceView.mkState None (ResourceView.generatingAudioId t)
        (ResourceView.audioCache t) None
        (alter Audio.pause a (ResourceView.audios t))
        (ResourceView.pending t) (ResourceView.alerts t)
  | None => t
  end.

(** [handleBack], lines 101-117. *)
Definition handleBack (s : state) : state :=
  let t := back_audio (tts s) in
  match step s with
  | step_search =>
      mkState step_unit (selectedUnit s) (selectedType s) [] (loading s)
              EmptyString (generatingId s) None t
  | step_list =>
      mkState step_type (selectedUnit s) (selectedType s) (resources s)
              (loading s) (searchQuery s) (generatingId s) None t
  | step_type =>
      mkState step_unit (selectedUnit s) (selectedType s) (resources s)
              (loading s) (searchQuery s) (generatingId s) None t
  | step_unit =>
      mkState step_unit (selectedUnit s) (selectedType s) (resources s)
              (loading s) (searchQuery s) (generatingId s) None t
  end.

(** The "Units" breadcrumb, line 224. *)
Definition breadcrumb (s : state) : state :=
  mkState step_unit (selectedUnit s) (selectedType s) (resources s)
          (loading s) EmptyString (generatingId s) (aiOutput s) (tts s).

(** The button that clears the search field, line 268. *)
Definition clearSearch (s : state) : state :=
  let s' := mkState (step s) (selectedUnit s) (selectedType s) (resources s)
                    (loading s) EmptyString (generatingId s) (aiOutput s)
                    (tts s) in
  if decide (step s = step_search) then handleBack s' else s'.

(** [handleDelete], lines 119-126: whether the deletion of the document is
    requested.  [confirm] is the answer [window.confirm] gives if asked. *)
Definition handleDelete_requested (isAdmin confirm : bool) : bool :=
  negb (negb isAdmin || negb confirm).

(** [handleDelete] from the result of the deletion on. *)
Definition handleDelete_settle (id : string) (outcome : result ())
    (s : state) : state :=
  match outcome with
  | Ok _ =>
      mkState (step s) (selectedUnit s) (selectedType s)
              (filter (λ r, r_id r ≠ id) (resources s))
              (loading s) (searchQuery s) (generatingId s) (aiOutput s)
              (tts s)
  | Throw _ => s
  end.

Definition handleDelete (isAdmin confirm : bool) (id : string)
    (outcome : result ()) (s : state) : state :=
  if handleDelete_requested isAdmin confirm
  then handleDelete_settle id outcome s
  else s.

(** [handleGenerateGuide] up to its [await], lines 128-134, and the content
    it passes to [generateStudyGuide]. *)
Definition handleGenerateGuide (resource : Resource) (s : state) : state :=
  mkState (step s) (selectedUnit s) (selectedType s) (resources s)
          (loading s) (searchQuery s) (Some (r_id resource)) None (tts s).

Definition guide_content (resource : Resource) : string :=
  "Title: " +:+ r_title resource +:+ Gemini.nl +:+ "Content:" +:+ Gemini.nl
  +:+ r_data resource.

(** [handleGenerateGuide] from the result of the [await] on, lines
    136-137; the handler has no [try]. *)
Definition handleGenerateGuide_settle (resource : Resource)
    (outcome : result (Gemini.StudyGuide Chunk)) (s : state) : state :=
  match outcome with
  | Ok g =>
      mkState (step s) (selectedUnit s) (selectedType s) (resources s)
              (loading s) (searchQuery s) None
              (Some (mkAiOutput (r_id resource) (Gemini.text g)
                                (Gemini.sources g)))
              (tts s)
  | Throw _ => s
  end.

(** The cleanup of the effect of lines 33-40, on the TTS state. *)
Definition cleanup (t : ResourceView.state) : ResourceView.state :=
  match ResourceView.currentAudioRef t with
  | Some a =>
      ResourceView.mkState (ResourceView.playingResourceId t)
        (ResourceView.generatingAudioId t) (ResourceView.audioCache t) None
        (alter Audio.pause a (ResourceView.audios t))
        (ResourceView.pending t) (ResourceView.alerts t)
  | None => t
  end.

(** What can happen to the component.  A result that is awaited can arrive
    at any time, with any outcome. *)
Inductive event : Type :=
| UnitSelect (unitKey : string)
| TypeSelect (typeKey : string)
| FetchSettled (outcome : result (list Resource))
| SetQuery (q : string)
| Search
| SearchSettled (query : string) (outcome : result (list Resource))
| Back
| Breadcrumb
| ClearSearch
| Delete (isAdmin confirm : bool) (id : string) (outcome : result ())
| Guide (resource : Resource)
| GuideSettled (resource : Resource)
               (outcome : result (Gemini.StudyGuide Chunk))
| TtsEvent (e : ResourceView.event).

Definition on_tts (e : ResourceView.event) (s : state) : state :=
  mkState (step s) (selectedUnit s) (selectedType s) (resources s)
          (loading s) (searchQuery s) (generatingId s) (aiOutput s)
          (ResourceView.step (tts s) e).

Definition step_event (s : state) (e : event) : state :=
  match e with
  | UnitSelect k => handleUnitSelect k s
  | TypeSelect k => handleTypeSelect k s
  | FetchSettled o => fetchResources_settle o s
  | SetQuery q =>
      mkState (step s) (selectedUnit s) (selectedType s) (resources s)
              (loading s) q (generatingId s) (aiOutput s) (tts s)
  | Search => performSearch s
  | SearchSettled q o => performSearch_settle q o s
  | Back => handleBack s
  | Breadcrumb => breadcrumb s
  | ClearSearch => clearSearch s
  | Delete a c id o => handleDelete a c id o s
  | Guide r => handleGenerateGuide r s
  | GuideSettled r o => handleGenerateGuide_settle r o s
  | TtsEvent e => on_tts e s
  end.

Definition run (evs : list event) (s : state) : state :=
  foldl step_event s evs.

(** A trace on which a generation that brings audio completes only when
    no element is the current one. *)
Fixpoint sequential (evs : list event) (s : state) : Prop :=
  match evs with
  | [] => True
  | e :: evs' =>
      match e with
      | TtsEvent (ResourceView.Resolve k r) =>
          ResourceView.currentAudioRef (tts s) = None ∨
          truthy (audioUrl r) = None
      | _ => True
      end ∧ sequential evs' (step_event s e)
  end.

(** What holds of the TTS state in every state of the component. *)
Definition tts_invariant (t : ResourceView.state) : Prop :=
  (∀ a, ResourceView.currentAudioRef t = Some a →
        Audio.is_playing (ResourceView.audios t) a = true) ∧
  (is_Some (ResourceView.playingResourceId t) ↔
   is_Some (ResourceView.currentAudioRef t)) ∧
  (∀ i url, ResourceView.audioCache t !! i = Some url → url ≠ EmptyString).

End Component.

Arguments mkAiOutput {Chunk}.
Arguments ai_id {Chunk}.
Arguments ai_text {Chunk}.
Arguments ai_sources {Chunk}.
Arguments mkState {Chunk}.
Arguments step {Chunk}.
Arguments selectedUnit {Chunk}.
Arguments selectedType {Chunk}.
Arguments resources {Chunk}.
Arguments loading {Chunk}.
Arguments searchQuery {Chunk}.
Arguments generatingId {Chunk}.
Arguments aiOutput {Chunk}.
Arguments tts {Chunk}.
Arguments init {Chunk}.
Arguments handleUnitSelect {Chunk}.
Arguments handleTypeSelect {Chunk}.
Arguments fetchResources_settle {Chunk}.
Arguments performSearch {Chunk}.
Arguments performSearch_settle {Chunk}.
Arguments handleBack {Chunk}.
Arguments breadcrumb {Chunk}.
Arguments clearSearch {Chunk}.
Arguments handleDelete_settle {Chunk}.
Arguments handleDelete {Chunk}.
Arguments handleGenerateGuide {Chunk}.
Arguments handleGenerateGuide_settle {Chunk}.
Arguments UnitSelect {Chunk}.
Arguments TypeSelect {Chunk}.
Arguments FetchSettled {Chunk}.
Arguments SetQuery {Chunk}.
Arguments Search {Chunk}.
Arguments SearchSettled {Chunk}.
Arguments Back {Chunk}.
Arguments Breadcrumb {Chunk}.
Arguments ClearSearch {Chunk}.
Arguments Delete {Chunk}.
Arguments Guide {Chunk}.
Arguments GuideSettled {Chunk}.
Arguments TtsEvent {Chunk}.
Arguments on_tts {Chunk}.
Arguments step_event {Chunk}.
Arguments run {Chunk}.
Arguments sequential {Chunk}.

End ResourceNav.

(** ** renderMarkdown

    A JavaScript string is the list of its UTF-16 code units.  The five
    calls of [replace] have global regular expressions whose matches are
    never empty, so [replace] scans the text from left to right: where the
    expression matches, the match is replaced and the scan goes on after
    it; elsewhere the code unit is copied. *)

Module Markdown.

(** The code units of an ASCII literal. *)
Definition units (s : string) : list N :=
  N_of_ascii <$> String.list_ascii_of_string s.

(** The double quote. *)
Definition dq : string := String "034"%char EmptyString.

(** LineTerminator: LF, CR, LS and PS.  It is what [.] does not match and
    what [^] and [$] look at with the flag [m]. *)
Definition is_line_terminator (c : N) : bool :=
  (c =? 10)%N || (c =? 13)%N || (c =? 8232)%N || (c =? 8233)%N.

Fixpoint starts_with (p s : list N) : bool :=
  match p, s with
  | [], _ => true
  | a :: p', b :: s' => (a =? b)%N && starts_with p' s'
  | _ :: _, [] => false
  end.

(** [^] with the flag [m]: at the start of the input or after a line
    terminator. *)
Definition at_line_start (prev : option N) : bool :=
  match prev with
  | None => true
  | Some c => is_line_terminator c
  end.

(** What [(.*$)] captures: [.*] is greedy and takes the code units up to
    the next line terminator or the end, where [$] holds. *)
Fixpoint line_rest (s : list N) : list N :=
  match s with
  | [] => []
  | c :: s' => if is_line_terminator c then [] else c :: line_rest s'
  end.

(** [/^M(.*$)/gim] with the replacement [open$1close], at a position with
    [prev] before it and [s] from it on: the length of the match and the
    text that replaces it.  The marker M has no letter, so the flag [i]
    changes nothing. *)
Definition match_line (M open close : list N) (prev : option N)
    (s : list N) : option (nat * list N) :=
  if at_line_start prev && starts_with M s then
    let g := line_rest (drop (length M) s) in
    Some ((length M + length g)%nat, open ++ g ++ close)
  else None.

(** What [(.*?)] captures before the closing stars: [.*?] is lazy and takes
    the fewest code units, none of them a line terminator, after which
    the two stars follow. *)
Fixpoint lazy_until_stars (s : list N) : option (list N) :=
  if starts_with [42; 42]%N s then Some []
  else
    match s with
    | [] => None
    | c :: s' =>
        if is_line_terminator c then None
        else cons c <$> lazy_until_stars s'
    end.

(** [/\*\*(.*?)\*\*/gim] with the replacement [open$1close]. *)
Definition match_bold (open close : list N) (prev : option N) (s : list N)
    : option (nat * list N) :=
  if starts_with [42; 42]%N s then
    match lazy_until_stars (drop 2 s) with
    | Some g => Some ((2 + length g + 2)%nat, open ++ g ++ close)
    | None => None
    end
  else None.

(** [/\n/gim] with the replacement [<br />]. *)
Definition match_newline (prev : option N) (s : list N)
    : option (nat * list N) :=
  match s with
  | c :: _ => if (c =? 10)%N then Some (1%nat, units "<br />") else None
  | [] => None
  end.

(** The scan of [replace]; every step takes at least one code unit, so the
    fuel [S (length s)] is enough. *)
Fixpoint scan (match_at : option N → list N → option (nat * list N))
    (fuel : nat) (prev : option N) (s : list N) : list N :=
  match fuel with
  | O => s
  | S fuel' =>
      match match_at prev s with
      | Some (len, repl) =>
          repl ++ scan match_at fuel' (last (take len s)) (drop len s)
      | None =>
          match s with
          | [] => []
          | c :: s' => c :: scan match_at fuel' (Some c) s'
          end
      end
  end.

Definition replace (match_at : option N → list N → option (nat * list N))
    (s : list N) : list N :=
  scan match_at (S (length s)) None s.

(** [renderMarkdown] of both views, for the opening tags, which carry the
    classes of the view. *)
Definition render (h3 h2 strong li : list N) (text : list N) : list N :=
  replace match_newline
    (replace (match_line (units "* ") li (units "</li>"))
       (replace (match_bold strong (units "</strong>"))
          (replace (match_line (units "## ") h2 (units "</h2>"))
             (replace (match_line (units "### ") h3 (units "</h3>")) text)))).

Definition tag (name classes : string) : list N :=
  units ("<" +:+ name +:+ " class=" +:+ dq +:+ classes +:+ dq +:+ ">").

(** [renderMarkdown] of the resource view, lines 207-215. *)
Definition renderMarkdown_resource : list N → list N :=
  render (tag "h3" "text-lg font-bold text-ai mt-4 mb-2")
         (tag "h2" "text-xl font-bold text-ai mt-5 mb-3")
         (units "<strong>")
         (tag "li" "ml-4 list-disc marker:text-ai").

(** [renderMarkdown] of the chat view. *)
Definition renderMarkdown_chat : list N → list N :=
  render (tag "h3" "font-bold text-lg mt-4 mb-2 text-slate-800")
         (tag "h2" "font-bold text-xl mt-5 mb-3 text-slate-800")
         (tag "strong" "text-slate-900")
         (tag "li" "ml-4 list-disc marker:text-ai/50").

(** What the last [replace] makes of one code unit. *)
Definition br_or (c : N) : list N :=
  if (c =? 10)%N then units "<br />" else [c].

(** No match of [match_at] on the way of the scan from [prev], [s]. *)
Fixpoint no_match (match_at : option N → list N → option (nat * list N))
    (prev : option N) (s : list N) : Prop :=
  match_at prev s = None ∧
  match s with
  | [] => True
  | c :: s' => no_match match_at (Some c) s'
  end.

End Markdown.

Definition markup_sample : list N :=
  Markdown.units "<img src=x onerror=alert(1)> & more".

(** ** The upload view: the queue and the batch upload *)

Module UploadQueue.

(** ['pending' | 'uploading' | 'success' | 'error'] *)
Inductive Status : Type := pending | uploading | success | error.

#[global] Instance Status_eq_dec : EqDecision Status.
Proof. solve_decision. Defined.

(** [Omit<QueuedResource, 'id' | 'status'>], as [addToQueue] is given it:
    without [error]. *)
Record NewItem : Type := mkNewItem {
  n_unit : string;
  n_type : string;
  n_title : string;
  n_data : string
}.

(** [interface QueuedResource]; [q_error] is [None] for [undefined]. *)
Record QueuedResource : Type := mkQueued {
  q_id : string;
  q_unit : string;
  q_type : string;
  q_title : string;
  q_data : string;
  q_status : Status;
  q_error : option string
}.

(** A document given to [add], without its server timestamp;
    [d_uploadedBy] is [auth.currentUser?.email]. *)
Record Document : Type := mkDocument {
  d_unit : string;
  d_type : string;
  d_title : string;
  d_data : string;
  d_uploadedBy : option string
}.

(** A dropped file: its name, its MIME type and what [file.text()]
    settles to. *)
Record File : Type := mkFile {
  f_name : string;
  f_type : string;
  f_text : result string
}.

(** The state of the component, and with it: the item whose [add] is
    awaited and the items of [pendingItems] that come after it, the
    documents that the collection has accepted, and the alerts. *)
Record state : Type := mkState {
  s_unit : string;
  s_type : string;
  manualTitle : string;
  manualData : string;
  queue : list QueuedResource;
  isDragging : bool;
  isGlobalUploading : bool;
  awaited : option (QueuedResource * list QueuedResource);
  documents : list Document;
  alerts : list string
}.

Definition init : state :=
  mkState EmptyString EmptyString EmptyString EmptyString [] false false
          None [] [].

Definition setUnit (v : string) (s : state) : state :=
  mkState v (s_type s) (manualTitle s) (manualData s) (queue s)
          (isDragging s) (isGlobalUploading s) (awaited s) (documents s)
          (alerts s).
Definition setType (v : string) (s : state) : state :=
  mkState (s_unit s) v (manualTitle s) (manualData s) (queue s)
          (isDragging s) (isGlobalUploading s) (awaited s) (documents s)
          (alerts s).
Definition setManualTitle (v : string) (s : state) : state :=
  mkState (s_unit s) (s_type s) v (manualData s) (queue s)
          (isDragging s) (isGlobalUploading s) (awaited s) (documents s)
          (alerts s).
Definition setManualData (v : string) (s : state) : state :=
  mkState (s_unit s) (s_type s) (manualTitle s) v (queue s)
          (isDragging s) (isGlobalUploading s) (awaited s) (documents s)
          (alerts s).
Definition setQueue (f : list QueuedResource → list QueuedResource)
    (s : state) : state :=
  mkState (s_unit s) (s_type s) (manualTitle s) (manualData s)
          (f (queue s)) (isDragging s) (isGlobalUploading s) (awaited s)
          (documents s) (alerts s).
Definition setIsDragging (v : bool) (s : state) : state :=
  mkState (s_unit s) (s_type s) (manualTitle s) (manualData s) (queue s)
          v (isGlobalUploading s) (awaited s) (documents s) (alerts s).
Definition setIsGlobalUploading (v : bool) (s : state) : state :=
  mkState (s_unit s) (s_type s) (manualTitle s) (manualData s) (queue s)
          (isDragging s) v (awaited s) (documents s) (alerts s).
Definition await (a : option (QueuedResource * list QueuedResource))
    (s : state) : state :=
  mkState (s_unit s) (s_type s) (manualTitle s) (manualData s) (queue s)
          (isDragging s) (isGlobalUploading s) a (documents s) (alerts s).
Definition accept (d : Document) (s : state) : state :=
  mkState (s_unit s) (s_type s) (manualTitle s) (manualData s) (queue s)
          (isDragging s) (isGlobalUploading s) (awaited s)
          (documents s ++ [d]) (alerts s).
Definition alert (msg : string) (s : state) : state :=
  mkState (s_unit s) (s_type s) (manualTitle s) (manualData s) (queue s)
          (isDragging s) (isGlobalUploading s) (awaited s) (documents s)
          (alerts s ++ [msg]).

(** A string in a condition: the empty string is falsy. *)
Definition truthy (v : string) : bool :=
  match v with
  | EmptyString => false
  | String _ _ => true
  end.

(** [addToQueue], for the [id] that [Math.random] gives. *)
Definition addToQueue (id : string) (newItem : NewItem) (s : state)
    : state :=
  setQueue (λ prev, prev ++
    [mkQueued id (n_unit newItem) (n_type newItem) (n_title newItem)
              (n_data newItem) pending None]) s.

Definition handleManualAdd (id : string) (s : state) : state :=
  if negb (truthy (s_unit s)) || negb (truthy (s_type s))
     || negb (truthy (manualTitle s)) || negb (truthy (manualData s))
  then alert "Please fill in all fields (Unit, Type, Title, Content)" s
  else
    setManualData EmptyString
      (setManualTitle EmptyString
         (addToQueue id
            (mkNewItem (s_unit s) (s_type s) (manualTitle s)
                       (manualData s)) s)).

Definition handleRemove (id : string) (s : state) : state :=
  setQueue (filter (λ item, q_id item ≠ id)) s.

Definition handleDragOver : state → state := setIsDragging true.
Definition handleDragLeave : state → state := setIsDragging false.

(** [name.replace(/\.[^/.]+$/, EMPTY)]: the expression matches at a dot
    that is followed, up to the end of the name, by one or more
    characters that are neither a slash nor a dot; the first match is
    removed. *)
Definition extension_char (c : ascii) : bool :=
  negb (Ascii.eqb c "/") && negb (Ascii.eqb c ".").

Fixpoint all_extension (s : string) : bool :=
  match s with
  | EmptyString => true
  | String c s' => extension_char c && all_extension s'
  end.

Definition extension_at (s : string) : bool :=
  match s with
  | String c rest => Ascii.eqb c "." && truthy rest && all_extension rest
  | EmptyString => false
  end.

Fixpoint strip_extension (s : string) : string :=
  if extension_at s then EmptyString
  else
    match s with
    | EmptyString => EmptyString
    | String c s' => String c (strip_extension s')
    end.

(** [s.endsWith(suffix)] *)
Fixpoint endsWith (s suffix : string) : bool :=
  String.eqb s suffix ||
  match s with
  | EmptyString => false
  | String _ s' => endsWith s' suffix
  end.

Definition is_text (file : File) : bool :=
  String.prefix "text/" (f_type file) || endsWith (f_name file) ".md"
  || endsWith (f_name file) ".json" || endsWith (f_name file) ".js"
  || endsWith (f_name file) ".ts".

Definition binary_placeholder : string :=
  "[Binary File - Content not extracted automatically. Please replace with URL or Text]".

(** What the body of the loop of [handleDrop] gives [addToQueue] for one
    file; nothing when [file.text()] throws, which the [catch] logs. *)
Definition dropped (unit type : string) (file : File) : option NewItem :=
  if is_text file then
    match f_text file with
    | Ok text =>
        Some (mkNewItem unit type (strip_extension (f_name file)) text)
    | Throw _ => None
    end
  else Some (mkNewItem unit type (f_name file) binary_placeholder).

(** The loop of [handleDrop] when nothing else happens during its reads;
    [random k] is the identifier of its [k]-th [addToQueue]. *)
Fixpoint for_of_files (unit type : string) (random : nat → string)
    (k : nat) (files : list File) (s : state) : state :=
  match files with
  | [] => s
  | file :: files' =>
      match dropped unit type file with
      | Some newItem =>
          for_of_files unit type random (S k) files'
            (addToQueue (random k) newItem s)
      | None => for_of_files unit type random k files' s
      end
  end.

Definition handleDrop (random : nat → string) (files : list File)
    (s : state) : state :=
  let s := setIsDragging false s in
  if negb (truthy (s_unit s)) || negb (truthy (s_type s))
  then
    alert "Please select a Unit and Resource Type before dropping files." s
  else for_of_files (s_unit s) (s_type s) random 0 files s.

(** [item.status === 'pending' || item.status === 'error'] *)
Definition retryable (item : QueuedResource) : Prop :=
  q_status item = pending ∨ q_status item = error.

#[global] Instance retryable_dec item : Decision (retryable item).
Proof. unfold retryable. apply _. Defined.

(** [{ ...q, status }] and [{ ...q, status: 'error', error }] *)
Definition with_status (st : Status) (q : QueuedResource)
    : QueuedResource :=
  mkQueued (q_id q) (q_unit q) (q_type q) (q_title q) (q_data q) st
           (q_error q).
Definition with_error (msg : string) (q : QueuedResource)
    : QueuedResource :=
  mkQueued (q_id q) (q_unit q) (q_type q) (q_title q) (q_data q) error
           (Some msg).

(** [prev.map(q => q.id === id ? f q : q)] *)
Definition mark (id : string) (f : QueuedResource → QueuedResource)
    (prev : list QueuedResource) : list QueuedResource :=
  (λ q, if decide (q_id q = id) then f q else q) <$> prev.

Section Upload.

(** [auth.currentUser?.email] *)
Variable email : option string.

Definition document_of (item : QueuedResource) : Document :=
  mkDocument (q_unit item) (q_type item) (q_title item) (q_data item)
             email.

(** The loop of [handleUploadAll] from the head of [items] to its
    [await]: the item is marked and its [add] is awaited; after the last
    item the loop is left. *)
Definition next (items : list QueuedResource) (s : state) : state :=
  match items with
  | [] => await None (setIsGlobalUploading false s)
  | item :: rest =>
      await (Some (item, rest))
        (setQueue (mark (q_id item) (with_status uploading)) s)
  end.

Definition handleUploadAll (s : state) : state :=
  next (filter retryable (queue s)) (setIsGlobalUploading true s).

(** [handleUploadAll] from the point where the awaited [add] settles. *)
Definition handleUploadAll_resume (o : result ()) (s : state) : state :=
  match awaited s with
  | None => s
  | Some (item, rest) =>
      next rest
        match o with
        | Ok _ =>
            setQueue (mark (q_id item) (with_status success))
              (accept (document_of item) s)
        | Throw err =>
            setQueue (mark (q_id item) (with_error (message err))) s
        end
  end.

Definition clearSuccess (s : state) : state :=
  setQueue (filter (λ item, q_status item ≠ success)) s.

(** What happens to the component.  [FileAdded] is one [addToQueue] of a
    [handleDrop] whose reads other events may separate: the unit and the
    type are those the drop has found selected.  The buttons that are
    disabled or absent do nothing: the one of an item that is uploading
    or uploaded, and [Upload] on an empty queue or during an upload. *)
Inductive event : Type :=
| SetUnit (v : string)
| SetType (v : string)
| SetManualTitle (v : string)
| SetManualData (v : string)
| ManualAdd (id : string)
| DragOver
| DragLeave
| Drop (random : nat → string) (files : list File)
| FileAdded (id : string) (newItem : NewItem)
| Remove (id : string)
| UploadAll
| Settled (o : result ())
| ClearSuccess.

Definition removable (id : string) (s : state) : bool :=
  bool_decide (Exists (λ item, q_id item = id ∧ retryable item) (queue s)).

Definition upload_disabled (s : state) : bool :=
  bool_decide (queue s = []) || isGlobalUploading s.

Definition step (s : state) (e : event) : state :=
  match e with
  | SetUnit v => setUnit v s
  | SetType v => setType v s
  | SetManualTitle v => setManualTitle v s
  | SetManualData v => setManualData v s
  | ManualAdd id => handleManualAdd id s
  | DragOver => handleDragOver s
  | DragLeave => handleDragLeave s
  | Drop random files => handleDrop random files s
  | FileAdded id newItem =>
      if truthy (n_unit newItem) && truthy (n_type newItem)
      then addToQueue id newItem s else s
  | Remove id => if removable id s then handleRemove id s else s
  | UploadAll => if upload_disabled s then s else handleUploadAll s
  | Settled o => handleUploadAll_resume o s
  | ClearSuccess => clearSuccess s
  end.

Definition run (es : list event) (s : state) : state := foldl step s es.

(** What one item has become when its [add] has settled. *)
Definition finish (o : result ()) (q : QueuedResource) : QueuedResource :=
  match o with
  | Ok _ => with_status success q
  | Throw err => with_error (message err) q
  end.

(** The queue after a batch, in one pass: the items that were pending or
    failed take the outcomes in their order. *)
Fixpoint settle (os : list (result ())) (qs : list QueuedResource)
    : list QueuedResource :=
  match qs with
  | [] => []
  | q :: qs' =>
      if decide (retryable q) then
        match os with
        | o :: os' => finish o q :: settle os' qs'
        | [] => q :: qs'
        end
      else q :: settle os qs'
  end.

(** The documents of the items whose [add] has returned. *)
Fixpoint sent (os : list (result ())) (items : list QueuedResource)
    : list Document :=
  match os, items with
  | Ok _ :: os', item :: items' => document_of item :: sent os' items'
  | Throw _ :: os', _ :: items' => sent os' items'
  | _, _ => []
  end.

(** The unit and the type of a queued item and of a document are not
    empty. *)
Definition labelled (q : QueuedResource) : Prop :=
  truthy (q_unit q) = true ∧ truthy (q_type q) = true.
Definition labelled_document (d : Document) : Prop :=
  truthy (d_unit d) = true ∧ truthy (d_type d) = true.

Definition all_labelled (s : state) : Prop :=
  Forall labelled (queue s) ∧
  Forall labelled_document (documents s) ∧
  match awaited s with
  | Some (item, rest) => labelled item ∧ Forall labelled rest
  | None => True
  end.

(** An upload is marked as running exactly while an [add] is awaited, and
    the items shown as uploading have the identifier of the awaited
    item. *)
Definition upload_invariant (s : state) : Prop :=
  match awaited s with
  | Some (item, _) =>
      isGlobalUploading s = true ∧
      Forall (λ q, q_status q = uploading → q_id q = q_id item) (queue s)
  | None =>
      isGlobalUploading s = false ∧
      Forall (λ q, q_status q ≠ uploading) (queue s)
  end.

End Upload.

End UploadQueue.

(** ** Inputs used in the further examples *)

Definition trim_none (s : string) : string := s.

(** Both views with the audio of A cached and nothing playing: A was
    requested, generated and played to its end. *)
Definition resource_cached_A : ResourceView.state :=
  ResourceView.run
    [ResourceView.Click rA; ResourceView.Resolve 0 (ok "blob:1");
     ResourceView.Ended 0]
    ResourceView.init.
Definition announcement_cached_A : AnnouncementView.state :=
  AnnouncementView.run
    [AnnouncementView.Click aA; AnnouncementView.Resolve 0 (ok "blob:1");
     AnnouncementView.Ended 0]
    AnnouncementView.init.

(** A and B are read aloud one after the other: B is requested while A
    plays. *)
Definition reading_A_then_B : list (ResourceNav.event ()) :=
  [ResourceNav.UnitSelect "physiology"; ResourceNav.TypeSelect "objectives";
   ResourceNav.TtsEvent (ResourceView.Click rA);
   ResourceNav.TtsEvent (ResourceView.Resolve 0 (ok "blob:1"));
   ResourceNav.TtsEvent (ResourceView.Click rB);
   ResourceNav.TtsEvent (ResourceView.Resolve 0 (ok "blob:2"))].

(** The upload view with three items queued: one pending, one that has
    failed and one that is uploaded; and a batch whose first call returns
    and whose second call throws. *)
Definition upload_sample : UploadQueue.state :=
  UploadQueue.mkState "physiology" "notes" EmptyString EmptyString
    [UploadQueue.mkQueued "k3x9a1q" "physiology" "notes" "Heart"
       "The cardiac cycle" UploadQueue.pending None;
     UploadQueue.mkQueued "p0m2z7c" "physiology" "notes" "Lungs"
       "Gas exchange" UploadQueue.error (Some "offline");
     UploadQueue.mkQueued "d8w4t5b" "anatomy" "slides" "Thorax"
       "https://example.org/thorax" UploadQueue.success None]
    false false None [] [].
Definition upload_outcomes : list (result ()) :=
  [Ok (); Throw (mkError "FirebaseError" "permission-denied")].
Definition admin_email : option string := Some "admin@example.org".

(** ** Little-endian bytes *)

Section LittleEndian.
Import DataView.

Lemma length_le_bytes n v : length (le_bytes n v) = n.
Proof. revert v; induction n as [|n IH]; intros v; simpl; [done|by rewrite IH]. Qed.

Lemma le_unsigned_le_bytes n v :
  le_unsigned (le_bytes n v) = v mod 2 ^ (8 * Z.of_nat n).
Proof.
  revert v; induction n as [|n IH]; intros v.
  - simpl. by rewrite Z.mod_1_r.
  - cbn [le_bytes le_unsigned foldr]. fold (le_unsigned (le_bytes n (Z.shiftr v 8))).
    rewrite IH, Z.shiftr_div_pow2 by lia.
    change 255 with (Z.ones 8). rewrite Z.land_ones by lia.
    replace (8 * Z.of_nat (S n)) with (8 + 8 * Z.of_nat n) by lia.
    rewrite Z.pow_add_r by lia.
    rewrite Z.rem_mul_r by lia. change (2 ^ 8) with 256. lia.
Qed.

Lemma le_bytes_range n v : Forall (λ b, 0 ≤ b < 256) (le_bytes n v).
Proof.
  revert v; induction n as [|n IH]; intros v; simpl; constructor; [|done].
  change 255 with (Z.ones 8). rewrite Z.land_ones by lia.
  apply Z.mod_pos_bound. lia.
Qed.

(** A write at the end of what has been written so far. *)
Lemma setBytes_cursor n v (w rest : list Z) :
  (n ≤ length rest)%nat →
  setBytes n (length w) v (w ++ rest) = Ok ((w ++ le_bytes n v) ++ drop n rest).
Proof.
  intros Hn. unfold setBytes.
  rewrite decide_True by (rewrite length_app; lia).
  f_equal.
  rewrite <- (take_drop n rest) at 1.
  replace (length w) with (length w + 0)%nat by lia.
  rewrite list_inserts_app_r, list_inserts_0_r, app_assoc; [done|].
  rewrite length_le_bytes, length_take. lia.
Qed.

Lemma slice_app_mid (w x rest : list Z) n :
  length x = n → slice (length w) n (w ++ x ++ rest) = x.
Proof.
  intros <-. unfold slice. rewrite drop_app_length. by rewrite take_app_length.
Qed.

(** A 16-bit value written by [setInt16] is read back by [getInt16]. *)
Lemma getInt16_le_bytes (w rest : list Z) v :
  -32768 ≤ v ≤ 32767 →
  getInt16 (length w) (w ++ le_bytes 2 v ++ rest) = v.
Proof.
  intros Hv. unfold getInt16, getUint16.
  rewrite slice_app_mid by apply length_le_bytes.
  rewrite le_unsigned_le_bytes. change (2 ^ (8 * Z.of_nat 2)) with 65536.
  destruct (Z.ltb_spec (v mod 65536) 32768) as [H|H];
    Z.to_euclidean_division_equations; lia.
Qed.

End LittleEndian.

(** ** The encoder's output *)

Module WavFacts.
Import DataView Wav WavLayout.

Lemma length_header_bytes c l r : length (header_bytes c l r) = 44%nat.
Proof. reflexivity. Qed.

Lemma length_frame_bytes channels p :
  length (frame_bytes channels p) = (2 * length channels)%nat.
Proof.
  unfold frame_bytes. induction channels as [|ch chs IH]; [done|].
  rewrite bind_cons, length_app, IH, length_le_bytes. simpl. lia.
Qed.

Lemma length_frames_bytes channels p n :
  length (frames_bytes channels p n) = (n * (2 * length channels))%nat.
Proof.
  unfold frames_bytes. revert p; induction n as [|n IH]; intros p; [done|].
  cbn [seq]. rewrite bind_cons, length_app, IH, length_frame_bytes. lia.
Qed.

Lemma frame_bytes_nil p : frame_bytes [] p = [].
Proof. reflexivity. Qed.

Lemma frames_bytes_0 channels p : frames_bytes channels p 0 = [].
Proof. reflexivity. Qed.

Lemma setUint32_cursor v (w rest : list Z) p o :
  p = length w → (4 ≤ length rest)%nat →
  setUint32 v (mkEnc (w ++ rest) p o) =
    Ok (mkEnc ((w ++ le_bytes 4 v) ++ drop 4 rest) (p + 4) o).
Proof.
  intros -> H. unfold setUint32, DataView.setUint32; cbn [view pos offset].
  by rewrite setBytes_cursor.
Qed.

Lemma setUint16_cursor v (w rest : list Z) p o :
  p = length w → (2 ≤ length rest)%nat →
  setUint16 v (mkEnc (w ++ rest) p o) =
    Ok (mkEnc ((w ++ le_bytes 2 v) ++ drop 2 rest) (p + 2) o).
Proof.
  intros -> H. unfold setUint16, DataView.setUint16; cbn [view pos offset].
  by rewrite setBytes_cursor.
Qed.

Ltac header_step :=
  first [ rewrite setUint32_cursor | rewrite setUint16_cursor ];
  [ cbn [mbind result_bind]; rewrite drop_replicate
  | reflexivity
  | rewrite length_replicate; lia ].

(** The header fills the first 44 bytes and leaves [pos] at 44. *)
Lemma write_header_ok numOfChan k sampleRate :
  write_header numOfChan (k + 44) sampleRate
      (mkEnc (replicate (k + 44) 0) 0 0) =
    Ok (mkEnc (header_bytes numOfChan (k + 44) sampleRate ++ replicate k 0)
              44 0).
Proof.
  unfold write_header.
  change (replicate (k + 44) 0) with ([] ++ replicate (k + 44) 0).
  do 12 header_step.
  cbn [pos].
  rewrite setUint32_cursor;
    [|reflexivity|rewrite length_replicate; lia].
  rewrite drop_replicate.
  replace (k + 44 - 4 - 4 - 4 - 4 - 4 - 2 - 2 - 4 - 4 - 2 - 2 - 4 - 4)%nat
    with k by lia.
  unfold header_bytes. rewrite <- !app_assoc. reflexivity.
Qed.

Lemma write_sample_cursor channels i ch (w rest : list Z) p o :
  channels !! i = Some ch → length w = (44 + o)%nat →
  (2 ≤ length rest)%nat →
  write_sample channels i (mkEnc (w ++ rest) p o) =
    Ok (mkEnc ((w ++ le_bytes 2 (quantize (ch !! p))) ++ drop 2 rest)
              p (o + 2)).
Proof.
  intros Hch Hw Hrest. unfold write_sample, DataView.setInt16.
  rewrite Hch; cbn [view pos offset]. rewrite <- Hw.
  by rewrite setBytes_cursor.
Qed.

(** The inner [for] appends the samples of the channels [i], ..., [i+n-1]
    of frame [p]. *)
Lemma for_each_cursor channels n : ∀ i (w rest : list Z) p o,
  (i + n ≤ length channels)%nat → length w = (44 + o)%nat →
  (2 * n ≤ length rest)%nat →
  for_each (write_sample channels) (seq i n) (mkEnc (w ++ rest) p o) =
    Ok (mkEnc ((w ++ frame_bytes (take n (drop i channels)) p)
                 ++ drop (2 * n) rest) p (o + 2 * n)).
Proof.
  induction n as [|n IH]; intros i w rest p o Hi Hw Hrest.
  - cbn [seq for_each take].
    rewrite frame_bytes_nil, app_nil_r, Nat.add_0_r. done.
  - destruct (lookup_lt_is_Some_2 channels i) as [ch Hch]; [lia|].
    cbn [seq for_each].
    rewrite (write_sample_cursor _ _ ch) by (done || lia).
    cbn [mbind result_bind].
    rewrite IH; [|lia|rewrite length_app, length_le_bytes; lia
                 |rewrite length_drop; lia].
    rewrite (drop_S _ _ _ Hch). cbn [take]. unfold frame_bytes.
    rewrite bind_cons, drop_drop, <- !app_assoc.
    replace (2 + 2 * n)%nat with (2 * S n)%nat by lia.
    replace (o + 2 + 2 * n)%nat with (o + 2 * S n)%nat by lia.
    reflexivity.
Qed.

Lemma frame_cursor channels (w rest : list Z) p o :
  length w = (44 + o)%nat → (2 * length channels ≤ length rest)%nat →
  frame (length channels) channels (mkEnc (w ++ rest) p o) =
    Ok (mkEnc ((w ++ frame_bytes channels p)
                 ++ drop (2 * length channels) rest)
              (p + 1) (o + 2 * length channels)).
Proof.
  intros Hw Hrest. unfold frame.
  rewrite for_each_cursor by (done || lia).
  cbn [mbind result_bind view pos offset].
  by rewrite drop_0, take_ge.
Qed.

(** The [while] appends the frames [p], ..., [len - 1] and stops: the
    fuel [len - p] is enough. *)
Lemma while_frames_cursor channels len fuel : ∀ p (w rest : list Z) o,
  (len - p ≤ fuel)%nat → length w = (44 + o)%nat →
  ((len - p) * (2 * length channels) ≤ length rest)%nat →
  while_frames fuel len (length channels) channels (mkEnc (w ++ rest) p o) =
    Ok (mkEnc ((w ++ frames_bytes channels p (len - p))
                 ++ drop ((len - p) * (2 * length channels)) rest)
              (p `max` len) (o + (len - p) * (2 * length channels))).
Proof.
  induction fuel as [|fuel IH]; intros p w rest o Hfuel Hw Hrest.
  - cbn [while_frames pos]. rewrite bool_decide_false by lia.
    replace (len - p)%nat with 0%nat by lia.
    rewrite frames_bytes_0, app_nil_r.
    rewrite Nat.mul_0_l, drop_0, Nat.add_0_r.
    by replace (p `max` len)%nat with p by lia.
  - cbn [while_frames pos]. case_bool_decide as Hp.
    + replace (len - p)%nat with (S (len - (p + 1))) in * by lia.
      rewrite frame_cursor by (done || lia).
      cbn [mbind result_bind].
      rewrite IH;
        [|lia|rewrite length_app, length_frame_bytes; lia
         |rewrite length_drop; lia].
      unfold frames_bytes. cbn [seq]. rewrite bind_cons.
      rewrite drop_drop, <- !app_assoc.
      replace (S p) with (p + 1)%nat by lia.
      replace (2 * length channels + (len - (p + 1)) * (2 * length channels))%nat
        with (S (len - (p + 1)) * (2 * length channels))%nat by lia.
      replace (o + 2 * length channels + (len - (p + 1)) * (2 * length channels))%nat
        with (o + S (len - (p + 1)) * (2 * length channels))%nat by lia.
      by replace ((p + 1) `max` len)%nat with (p `max` len)%nat by lia.
    + replace (len - p)%nat with 0%nat by lia.
      rewrite frames_bytes_0, app_nil_r.
      rewrite Nat.mul_0_l, drop_0, Nat.add_0_r.
      by replace (p `max` len)%nat with p by lia.
Qed.

(** The loop at line 137 collects the channels. *)
Lemma mapM_getChannelData b n : ∀ i,
  (i + n ≤ length (AudioBuffer.channelData b))%nat →
  mapM (AudioBuffer.getChannelData b) (seq i n) =
    Ok (take n (drop i (AudioBuffer.channelData b))).
Proof.
  induction n as [|n IH]; intros i Hi; [done|].
  destruct (lookup_lt_is_Some_2 (AudioBuffer.channelData b) i)
    as [ch Hch]; [lia|].
  cbn [seq]. change (mapM ?f (?x :: ?l)) with (y ← f x; k ← mapM f l; mret (y :: k)).
  rewrite IH by lia. unfold AudioBuffer.getChannelData. rewrite Hch.
  cbn [mbind result_bind mret result_ret].
  by rewrite (drop_S _ _ _ Hch).
Qed.

(** What the encoder returns: the header, the frames from index 44 on,
    and the zeros the ArrayBuffer was created with in the rest. *)
Theorem audioBufferToWav_bytes (b : AudioBuffer.t) :
  length (AudioBuffer.channelData b) = AudioBuffer.numberOfChannels b →
  let C := AudioBuffer.numberOfChannels b in
  let N := AudioBuffer.length b in
  audioBufferToWav b =
    Ok (mkBlob
          (header_bytes C (N * C * 2 + 44) (AudioBuffer.sampleRate b)
             ++ frames_bytes (AudioBuffer.channelData b) 44 (N - 44)
             ++ replicate (N * C * 2 - (N - 44) * (2 * C)) 0)
          "audio/wav").
Proof.
  intros HC C N. unfold audioBufferToWav. fold C N.
  rewrite write_header_ok. cbn [mbind result_bind].
  rewrite (mapM_getChannelData b C 0) by lia.
  cbn [mbind result_bind]. rewrite drop_0, take_ge by lia.
  pose proof (while_frames_cursor (AudioBuffer.channelData b) N N 44
    (header_bytes C (N * C * 2 + 44) (AudioBuffer.sampleRate b))
    (replicate (N * C * 2) 0) 0) as Hloop.
  rewrite HC in Hloop. fold C in Hloop.
  rewrite Hloop; [|lia|reflexivity|rewrite length_replicate; nia].
  cbn [mbind result_bind view]. rewrite drop_replicate.
  by rewrite <- app_assoc.
Qed.

(** The number of bytes of the output described by
    [audioBufferToWav_bytes]. *)
Lemma length_output (b : AudioBuffer.t) :
  length (AudioBuffer.channelData b) = AudioBuffer.numberOfChannels b →
  let C := AudioBuffer.numberOfChannels b in
  let N := AudioBuffer.length b in
  length (header_bytes C (N * C * 2 + 44) (AudioBuffer.sampleRate b)
            ++ frames_bytes (AudioBuffer.channelData b) 44 (N - 44)
            ++ replicate (N * C * 2 - (N - 44) * (2 * C)) 0)
  = (N * C * 2 + 44)%nat.
Proof.
  intros HC C N.
  rewrite !length_app, length_header_bytes, length_frames_bytes,
    length_replicate, HC.
  fold C. nia.
Qed.

End WavFacts.

Module QuantizationFacts.
Import DataView Wav QuantizationRule.

Lemma Qle_bool_false a b : Qle_bool a b = false ↔ (b < a)%Q.
Proof.
  rewrite <- not_true_iff_false, Qle_bool_iff. split.
  - apply Qnot_le_lt.
  - apply Qlt_not_le.
Qed.

Lemma Qlt_bool_true a b : Qlt_bool a b = true ↔ (a < b)%Q.
Proof. unfold Qlt_bool. rewrite negb_true_iff. apply Qle_bool_false. Qed.

Lemma Qlt_bool_false a b : Qlt_bool a b = false ↔ (b <= a)%Q.
Proof. unfold Qlt_bool. rewrite negb_false_iff. apply Qle_bool_iff. Qed.

Lemma trunc_Qeq x y : (x == y)%Q → trunc x = trunc y.
Proof.
  unfold Qeq, trunc. intros H.
  rewrite <- (Z.quot_mul_cancel_r (Qnum x) (Z.pos (Qden x)) (Z.pos (Qden y)))
    by lia.
  rewrite H, (Z.mul_comm (Z.pos (Qden x)) (Z.pos (Qden y))).
  apply Z.quot_mul_cancel_r; lia.
Qed.

Lemma trunc_bounds x (a b : Z) :
  a ≤ 0 → 0 ≤ b → (a # 1 <= x)%Q → (x <= b # 1)%Q →
  a ≤ trunc x ≤ b.
Proof.
  unfold Qle, trunc. cbn [Qnum Qden]. intros Ha Hb Hax Hxb.
  destruct x as [n d]; cbn [Qnum Qden] in *.
  pose proof (Z.quot_rem' n (Z.pos d)) as Hqr.
  destruct (Z_le_gt_dec 0 n) as [Hn|Hn].
  - pose proof (Z.rem_bound_pos n (Z.pos d) Hn ltac:(lia)). nia.
  - pose proof (Z.rem_opp_l (- n) (Z.pos d) ltac:(lia)) as Hopp.
    rewrite Z.opp_involutive in Hopp.
    pose proof (Z.rem_bound_pos (- n) (Z.pos d) ltac:(lia) ltac:(lia)). nia.
Qed.

Lemma clamp_spec_range s : (-1 <= clamp_spec s)%Q ∧ (clamp_spec s <= 1)%Q.
Proof.
  unfold clamp_spec.
  destruct (Qlt_bool s (-1)) eqn:H1; [split; lra|].
  destruct (Qlt_bool 1 s) eqn:H2; [split; lra|].
  apply Qlt_bool_false in H1, H2. split; lra.
Qed.

(** [Math.max(-1, Math.min(1, s))] is the clamp to [-1,1]. *)
Lemma clamp_clamp_spec s : (clamp s == clamp_spec s)%Q.
Proof.
  unfold clamp, clamp_spec, Math_max, Math_min.
  destruct (Qle_bool 1 s) eqn:H1.
  - apply Qle_bool_iff in H1. change (Qle_bool (-1) 1) with true.
    destruct (Qlt_bool s (-1)) eqn:H2;
      [apply Qlt_bool_true in H2; lra|].
    destruct (Qlt_bool 1 s) eqn:H3; [reflexivity|].
    apply Qlt_bool_false in H3. lra.
  - apply Qle_bool_false in H1.
    destruct (Qle_bool (-1) s) eqn:H2.
    + apply Qle_bool_iff in H2.
      destruct (Qlt_bool s (-1)) eqn:H3;
        [apply Qlt_bool_true in H3; lra|].
      destruct (Qlt_bool 1 s) eqn:H4;
        [apply Qlt_bool_true in H4; lra|reflexivity].
    + apply Qle_bool_false in H2.
      destruct (Qlt_bool s (-1)) eqn:H3; [reflexivity|].
      apply Qlt_bool_false in H3. lra.
Qed.

Lemma quantize_amended_range s : -32768 ≤ quantize_amended s ≤ 32767.
Proof.
  unfold quantize_amended. destruct (clamp_spec_range s) as [Hlo Hhi].
  destruct (Qlt_bool (clamp_spec s) (-(1 # 2))) eqn:Hc.
  - apply Qlt_bool_true in Hc.
    enough (-32768 ≤ trunc (clamp_spec s * 32768) ≤ 0) by lia.
    apply trunc_bounds; [lia|lia|lra|lra].
  - apply Qlt_bool_false in Hc.
    enough (-16384 ≤ trunc (clamp_spec s * 32767) ≤ 32767) by lia.
    apply trunc_bounds; [lia|lia|lra|lra].
Qed.

(** Lines 142-143 compute the amended rule: the test [0.5 + sample < 0]
    is [sample < -1/2], and [| 0] does not wrap. *)
Lemma quantize_quantize_amended s : quantize (Some s) = quantize_amended s.
Proof.
  pose proof (quantize_amended_range s) as Hr. revert Hr.
  unfold quantize, quantize_amended, ToInt32.
  pose proof (clamp_clamp_spec s) as Hc.
  set (c' := clamp s) in *. set (c := clamp_spec s) in *.
  assert (Qlt_bool (0.5 + c') 0 = Qlt_bool c (-(1 # 2))) as ->.
  { destruct (Qlt_bool c (-(1 # 2))) eqn:H.
    - apply Qlt_bool_true in H. apply Qlt_bool_true. lra.
    - apply Qlt_bool_false in H. apply Qlt_bool_false. lra. }
  assert (∀ k, trunc (c' * k) = trunc (c * k)) as Ht.
  { intros k. apply trunc_Qeq. by rewrite Hc. }
  destruct (Qlt_bool c (-(1 # 2))); rewrite Ht; intros Hr;
    Z.to_euclidean_division_equations; lia.
Qed.

(** The two rules differ on [-1/2, 0) only. *)
Lemma quantize_amended_spec s :
  (s < -(1 # 2))%Q ∨ (0 <= s)%Q → quantize_amended s = quantize_spec s.
Proof.
  intros Hs. unfold quantize_amended, quantize_spec.
  assert (Qlt_bool (clamp_spec s) (-(1 # 2)) = Qlt_bool (clamp_spec s) 0)
    as ->; [|done].
  unfold clamp_spec.
  destruct (Qlt_bool s (-1)) eqn:H1; [done|].
  destruct (Qlt_bool 1 s) eqn:H2; [done|].
  destruct (Qlt_bool s 0) eqn:H3.
  - apply Qlt_bool_true in H3. apply Qlt_bool_true. lra.
  - apply Qlt_bool_false in H3. apply Qlt_bool_false. lra.
Qed.

End QuantizationFacts.

Module WavClaims.
Import DataView Wav WavLayout WavFacts QuantizationRule QuantizationFacts.

Lemma write_sample_ok channels i ch (st : enc) :
  channels !! i = Some ch →
  (44 + offset st + 2 ≤ length (view st))%nat →
  write_sample channels i st =
    Ok (mkEnc (take (44 + offset st) (view st)
                 ++ le_bytes 2 (quantize (ch !! pos st))
                 ++ drop (44 + offset st + 2) (view st))
              (pos st) (offset st + 2)).
Proof.
  intros Hch Hlen. destruct st as [v p o]; cbn [view pos offset] in *.
  rewrite <- (take_drop (44 + o) v) at 1.
  rewrite (write_sample_cursor _ _ ch);
    [|done|rewrite length_take; lia|rewrite length_drop; lia].
  by rewrite drop_drop, <- app_assoc.
Qed.

(** C1, as amended: when the encoder emits a sample s (the body of the
    inner loop, reading s at [channels[i][pos]] and writing at byte
    [44 + offset]), the 16-bit value it stores is s clamped to [-1,1],
    multiplied by 32768 if the clamped value is below -1/2 and by 32767
    otherwise, truncated toward zero. *)
Theorem write_sample_quantization channels i ch s (st : enc) :
  channels !! i = Some ch →
  ch !! pos st = Some s →
  (44 + offset st + 2 ≤ length (view st))%nat →
  ∃ st', write_sample channels i st = Ok st' ∧
         length (view st') = length (view st) ∧
         getInt16 (44 + offset st) (view st') = quantize_amended s.
Proof.
  intros Hch Hs Hlen. eexists. split; [by apply write_sample_ok|].
  cbn [view]. rewrite Hs, quantize_quantize_amended. split.
  - rewrite !length_app, length_take, length_drop, length_le_bytes. lia.
  - replace (44 + offset st)%nat
      with (length (take (44 + offset st) (view st)))
      by (rewrite length_take; lia).
    rewrite length_take at 2.
    replace ((44 + offset st) `min` length (view st))%nat
      with (44 + offset st)%nat by lia.
    apply getInt16_le_bytes, quantize_amended_range.
Qed.

Lemma write_sample_quantization_witness :
  ∃ st', write_sample [[(-0.5)%Q]] 0 (mkEnc (replicate 46 0) 0 0) = Ok st' ∧
         length (view st') = 46%nat ∧
         getInt16 44 (view st') = -16383.
Proof.
  apply (write_sample_quantization [[(-0.5)%Q]] 0 [(-0.5)%Q] (-0.5)%Q
           (mkEnc (replicate 46 0) 0 0)).
  - reflexivity.
  - reflexivity.
  - simpl. lia.
Defined.

Lemma frames_bytes_split channels p n k :
  (k < n)%nat →
  frames_bytes channels p n =
    frames_bytes channels p k ++ frame_bytes channels (p + k)
      ++ frames_bytes channels (p + k + 1) (n - k - 1).
Proof.
  intros Hk. unfold frames_bytes.
  replace n with (k + (1 + (n - k - 1)))%nat at 1 by lia.
  rewrite !seq_app, !bind_app. cbn [seq]. rewrite bind_cons.
  by rewrite app_nil_r.
Qed.

Lemma frame_bytes_split channels i ch q :
  channels !! i = Some ch →
  frame_bytes channels q =
    frame_bytes (take i channels) q ++ le_bytes 2 (quantize (ch !! q))
      ++ frame_bytes (drop (S i) channels) q.
Proof.
  intros Hch. unfold frame_bytes.
  rewrite <- (take_drop_middle channels i ch Hch) at 1.
  by rewrite bind_app, bind_cons.
Qed.

(** The whole encoder on a valid buffer: the sample of channel [i] in a
    frame [p] from 44 on is emitted, by the amended rule, as the
    16-bit value number [(p - 44) * C + i] of the data. *)
Lemma audioBufferToWav_emitted (b : AudioBuffer.t) i p ch s :
  AudioBuffer.valid b →
  AudioBuffer.channelData b !! i = Some ch →
  ch !! p = Some s →
  (44 ≤ p)%nat →
  ∃ blob, audioBufferToWav b = Ok blob ∧
    getInt16 (44 + 2 * ((p - 44) * AudioBuffer.numberOfChannels b + i))
      (blob_bytes blob) = quantize_amended s.
Proof.
  intros (_ & _ & HC & Hlen) Hch Hs Hp.
  eexists. split; [by apply audioBufferToWav_bytes|]. cbn [blob_bytes].
  assert (p < AudioBuffer.length b)%nat as HpN.
  { rewrite Forall_forall in Hlen. rewrite <- (Hlen ch).
    - by eapply lookup_lt_Some.
    - by eapply list_elem_of_lookup_2. }
  assert (i < length (AudioBuffer.channelData b))%nat as Hi
    by (by eapply lookup_lt_Some).
  rewrite (frames_bytes_split _ 44 _ (p - 44)) by lia.
  replace (44 + (p - 44))%nat with p by lia.
  rewrite (frame_bytes_split _ i ch p Hch), Hs, quantize_quantize_amended.
  set (hd := header_bytes _ _ _).
  set (w1 := frames_bytes _ 44 (p - 44)).
  set (w2 := frame_bytes (take i _) p).
  rewrite <- !app_assoc.
  rewrite (app_assoc hd w1), (app_assoc (hd ++ w1) w2).
  replace (44 + 2 * ((p - 44) * AudioBuffer.numberOfChannels b + i))%nat
    with (length ((hd ++ w1) ++ w2)).
  - apply getInt16_le_bytes, quantize_amended_range.
  - rewrite !length_app. unfold hd, w1, w2.
    rewrite length_header_bytes, length_frames_bytes, length_frame_bytes,
      length_take, HC.
    rewrite HC in Hi. lia.
Qed.

(** C1, as stated, fails: every sample of [half_buffer] is -0.5, for
    which the stated rule gives -16384 (-0.5 * 32768), and no 16-bit
    value of the data chunk is -16384; the first one is -16383
    (-0.5 * 32767 truncated). *)
Lemma quantize_spec_counterexample :
  AudioBuffer.valid half_buffer ∧
  Forall (Forall (λ s, quantize_spec s = -16384))
         (AudioBuffer.channelData half_buffer) ∧
  ∃ blob, audioBufferToWav half_buffer = Ok blob ∧
          getInt16 44 (blob_bytes blob) = -16383 ∧
          Forall (λ j, getInt16 (44 + 2 * j) (blob_bytes blob) ≠ -16384)
                 (seq 0 45).
Proof.
  split; [|split].
  - unfold AudioBuffer.valid; simpl.
    split; [lia|split; [lia|split; [reflexivity|repeat constructor]]].
  - simpl. repeat constructor.
  - eexists. split; [vm_compute; reflexivity|]. split; [reflexivity|].
    apply Forall_forall. intros j Hj.
    apply list_elem_of_In, in_seq in Hj.
    do 45 (destruct j as [|j]; [vm_compute; discriminate|]). lia.
Qed.

(** C5: for a valid buffer the encoder returns, and the output has
    exactly 44 + N*C*2 bytes. *)
Theorem audioBufferToWav_length (b : AudioBuffer.t) :
  AudioBuffer.valid b →
  ∃ blob, audioBufferToWav b = Ok blob ∧
          length (blob_bytes blob) =
            (44 + AudioBuffer.length b * AudioBuffer.numberOfChannels b * 2)%nat.
Proof.
  intros (_ & _ & HC & _). eexists. split; [by apply audioBufferToWav_bytes|].
  cbn [blob_bytes]. rewrite (length_output b HC). lia.
Qed.

Lemma sample_buffer_valid : AudioBuffer.valid sample_buffer.
Proof.
  unfold AudioBuffer.valid; simpl.
  split; [lia|split; [lia|split; [reflexivity|repeat constructor]]].
Qed.

Lemma audioBufferToWav_length_witness :
  ∃ blob, audioBufferToWav sample_buffer = Ok blob ∧
          length (blob_bytes blob) = 52%nat.
Proof.
  apply (audioBufferToWav_length sample_buffer).
  unfold AudioBuffer.valid; simpl.
  split; [lia|split; [lia|split; [reflexivity|repeat constructor]]].
Defined.

(** C6: for a valid buffer the first 36 bytes of the output are "RIFF",
    the u32 total length minus 8, "WAVE", "fmt ", u32 16, u16 1, u16 C,
    u32 R, u32 R*2*C, u16 2*C and u16 16, each little-endian. *)
Theorem audioBufferToWav_header (b : AudioBuffer.t) :
  AudioBuffer.valid b →
  let C := Z.of_nat (AudioBuffer.numberOfChannels b) in
  let R := AudioBuffer.sampleRate b in
  ∃ blob, audioBufferToWav b = Ok blob ∧
    let out := blob_bytes blob in
    slice 0 4 out = ascii_bytes "RIFF" ∧
    slice 4 4 out = le_bytes 4 (Z.of_nat (length out) - 8) ∧
    slice 8 4 out = ascii_bytes "WAVE" ∧
    slice 12 4 out = ascii_bytes "fmt " ∧
    slice 16 4 out = le_bytes 4 16 ∧
    slice 20 2 out = le_bytes 2 1 ∧
    slice 22 2 out = le_bytes 2 C ∧
    slice 24 4 out = le_bytes 4 R ∧
    slice 28 4 out = le_bytes 4 (R * 2 * C) ∧
    slice 32 2 out = le_bytes 2 (2 * C) ∧
    slice 34 2 out = le_bytes 2 16.
Proof.
  intros (_ & _ & HC & _) C R.
  eexists. split; [by apply audioBufferToWav_bytes|].
  cbn [blob_bytes]. cbn zeta. rewrite (length_output b HC).
  set (rest := _ ++ replicate _ _). clearbody rest.
  replace (2 * C) with (C * 2) by lia.
  repeat split; reflexivity.
Qed.

Lemma audioBufferToWav_header_witness :
  ∃ blob, audioBufferToWav sample_buffer = Ok blob ∧
    let out := blob_bytes blob in
    slice 0 4 out = ascii_bytes "RIFF" ∧
    slice 4 4 out = le_bytes 4 (Z.of_nat (length out) - 8) ∧
    slice 8 4 out = ascii_bytes "WAVE" ∧
    slice 12 4 out = ascii_bytes "fmt " ∧
    slice 16 4 out = le_bytes 4 16 ∧
    slice 20 2 out = le_bytes 2 1 ∧
    slice 22 2 out = le_bytes 2 1 ∧
    slice 24 4 out = le_bytes 4 24000 ∧
    slice 28 4 out = le_bytes 4 (24000 * 2 * 1) ∧
    slice 32 2 out = le_bytes 2 (2 * 1) ∧
    slice 34 2 out = le_bytes 2 16.
Proof.
  apply (audioBufferToWav_header sample_buffer).
  unfold AudioBuffer.valid; simpl.
  split; [lia|split; [lia|split; [reflexivity|repeat constructor]]].
Defined.

(** The numeric fields of the header read back as numbers, when each
    fits its field. *)
Lemma audioBufferToWav_header_values (b : AudioBuffer.t) :
  AudioBuffer.valid b →
  let C := Z.of_nat (AudioBuffer.numberOfChannels b) in
  let R := AudioBuffer.sampleRate b in
  let total := 44 + Z.of_nat (AudioBuffer.length b) * C * 2 in
  2 * C < 2 ^ 16 → R * 2 * C < 2 ^ 32 → total < 2 ^ 32 →
  ∃ blob, audioBufferToWav b = Ok blob ∧
    let out := blob_bytes blob in
    getUint32 4 out = total - 8 ∧
    getUint32 16 out = 16 ∧
    getUint16 20 out = 1 ∧
    getUint16 22 out = C ∧
    getUint32 24 out = R ∧
    getUint32 28 out = R * 2 * C ∧
    getUint16 32 out = 2 * C ∧
    getUint16 34 out = 16.
Proof.
  intros (HC1 & HR & HC & _) C R total H16 H32 Htot.
  eexists. split; [by apply audioBufferToWav_bytes|].
  cbn [blob_bytes]. cbn zeta.
  set (rest := _ ++ replicate _ _). clearbody rest.
  unfold getUint32, getUint16.
  change (slice 4 4 (header_bytes ?c ?l ?r ++ rest))
    with (le_bytes 4 (Z.of_nat l - 8)).
  change (slice 16 4 (header_bytes ?c ?l ?r ++ rest)) with (le_bytes 4 16).
  change (slice 20 2 (header_bytes ?c ?l ?r ++ rest)) with (le_bytes 2 1).
  change (slice 22 2 (header_bytes ?c ?l ?r ++ rest))
    with (le_bytes 2 (Z.of_nat c)).
  change (slice 24 4 (header_bytes ?c ?l ?r ++ rest)) with (le_bytes 4 r).
  change (slice 28 4 (header_bytes ?c ?l ?r ++ rest))
    with (le_bytes 4 (r * 2 * Z.of_nat c)).
  change (slice 32 2 (header_bytes ?c ?l ?r ++ rest))
    with (le_bytes 2 (Z.of_nat c * 2)).
  change (slice 34 2 (header_bytes ?c ?l ?r ++ rest)) with (le_bytes 2 16).
  rewrite !le_unsigned_le_bytes.
  change (2 ^ (8 * Z.of_nat 4)) with (2 ^ 32).
  change (2 ^ (8 * Z.of_nat 2)) with (2 ^ 16).
  fold C R. unfold total in *.
  repeat split; rewrite Z.mod_small; lia.
Qed.

(** What the code writes at bytes 36-43: "data", then the u32 conversion
    of N*C*2 - 40.  The argument [length - pos - 44] is evaluated with
    [pos] = 40, where [length - 44] is the size of the sample data. *)
Lemma audioBufferToWav_data_chunk_header (b : AudioBuffer.t) :
  AudioBuffer.valid b →
  ∃ blob, audioBufferToWav b = Ok blob ∧
    slice 36 4 (blob_bytes blob) = ascii_bytes "data" ∧
    slice 40 4 (blob_bytes blob) =
      le_bytes 4 (Z.of_nat (AudioBuffer.length b
                            * AudioBuffer.numberOfChannels b * 2) - 40).
Proof.
  intros (_ & _ & HC & _). eexists. split; [by apply audioBufferToWav_bytes|].
  cbn [blob_bytes]. set (rest := _ ++ replicate _ _). clearbody rest.
  split; [reflexivity|].
  replace (Z.of_nat (AudioBuffer.length b * AudioBuffer.numberOfChannels b * 2) - 40)
    with (Z.of_nat (AudioBuffer.length b * AudioBuffer.numberOfChannels b * 2 + 44)
          - 40 - 44) by lia.
  reflexivity.
Qed.

(** C2 at [sample_buffer] (N = 4, C = 1, so N*C*2 = 8): bytes 36-39 are
    "data", and bytes 40-43 hold 4294967264, the u32 conversion of
    8 - 40, where the claim has 8. *)
Theorem data_chunk_size_sample_buffer :
  ∃ blob, audioBufferToWav sample_buffer = Ok blob ∧
    slice 36 4 (blob_bytes blob) = ascii_bytes "data" ∧
    slice 40 4 (blob_bytes blob) = [224; 255; 255; 255] ∧
    getUint32 40 (blob_bytes blob) = 4294967264 ∧
    Z.of_nat (AudioBuffer.length sample_buffer
              * AudioBuffer.numberOfChannels sample_buffer * 2) = 8.
Proof. eexists. split; [vm_compute; reflexivity|]. by vm_compute. Qed.

(** C3 at its input: the output has 52 bytes, and the four 16-bit values
    at bytes 44-51 are all 0, where the claim has 0, 16383, -16384 and
    32767: the loop starts at frame 44, so no frame of this buffer is
    written. *)
Theorem sample_buffer_encoding :
  ∃ blob, audioBufferToWav sample_buffer = Ok blob ∧
    length (blob_bytes blob) = 52%nat ∧
    getInt16 44 (blob_bytes blob) = 0 ∧
    getInt16 46 (blob_bytes blob) = 0 ∧
    getInt16 48 (blob_bytes blob) = 0 ∧
    getInt16 50 (blob_bytes blob) = 0.
Proof. eexists. split; [vm_compute; reflexivity|]. by vm_compute. Qed.

End WavClaims.

(** ** generateTTS: properties *)

Module TtsFacts.
Import Tts.

Lemma truthy_nonempty v m : truthy v = Some m → m ≠ EmptyString.
Proof. destruct v as [[|c v]|]; simpl; intros; simplify_eq; done. Qed.



End TtsFacts.

(** ** Audio elements: properties *)

Module AudioFacts.
Import Audio.

Lemma is_playing_lt l a : is_playing l a = true → (a < length l)%nat.
Proof.
  unfold is_playing. destruct (l !! a) eqn:H; [|done].
  intros _. by eapply lookup_lt_Some.
Qed.

Lemma is_playing_pause_eq l a : is_playing (alter pause a l) a = false.
Proof.
  unfold is_playing. rewrite list_lookup_alter_eq.
  by destruct (l !! a).
Qed.

Lemma is_playing_pause_ne l a b :
  a ≠ b → is_playing (alter pause a l) b = is_playing l b.
Proof. intros H. unfold is_playing. by rewrite list_lookup_alter_ne. Qed.

Lemma is_playing_app_l l x a :
  (a < length l)%nat → is_playing (l ++ [x]) a = is_playing l a.
Proof. intros H. unfold is_playing. by rewrite lookup_app_l. Qed.

Lemma is_playing_snoc l x a :
  is_playing (l ++ [x]) a = true →
  is_playing l a = true ∨ a = length l.
Proof.
  intros H. destruct (decide (a < length l)%nat) as [Hlt|Hge].
  - left. by rewrite is_playing_app_l in H.
  - right. apply is_playing_lt in H. rewrite length_app in H. simpl in H. lia.
Qed.

End AudioFacts.

(** ** The resource view: properties *)

Module ResourceFacts.
Import Tts Audio AudioFacts ResourceView.

Lemma handleStopTTS_silent s :
  only_current s → ∀ b, is_playing (audios (handleStopTTS s)) b = false.
Proof.
  intros Hs b. unfold handleStopTTS.
  destruct (currentAudioRef s) as [a|] eqn:Ha; cbn [audios].
  - destruct (decide (a = b)) as [->|Hne]; [apply is_playing_pause_eq|].
    rewrite is_playing_pause_ne by done.
    destruct (is_playing (audios s) b) eqn:Hb; [|done].
    apply Hs in Hb. congruence.
  - destruct (is_playing (audios s) b) eqn:Hb; [|done].
    apply Hs in Hb. congruence.
Qed.

Lemma play_or_generate_only_current resource s :
  (∀ b, is_playing (audios s) b = false) →
  only_current (play_or_generate resource s).
Proof.
  intros Hs a. unfold play_or_generate, start.
  destruct (truthy _); cbn [audios currentAudioRef].
  - intros [H| ->]%is_playing_snoc; [|done]. by rewrite Hs in H.
  - by rewrite Hs.
Qed.

Lemma only_current_at_most_one s : only_current s → at_most_one_active s.
Proof. intros Hs a b Ha%Hs Hb%Hs. congruence. Qed.

Lemma wf_handleStopTTS s : wf (handleStopTTS s).
Proof. unfold handleStopTTS. by destruct (currentAudioRef s); intros b. Qed.

Lemma wf_play_or_generate resource s :
  wf s → wf (play_or_generate resource s).
Proof.
  intros Hs b. unfold play_or_generate, start.
  destruct (truthy _); cbn [currentAudioRef audios]; [|apply Hs].
  intros [= <-]. rewrite length_app. simpl. lia.
Qed.

Lemma wf_handlePlayTTS resource s : wf s → wf (handlePlayTTS resource s).
Proof.
  intros Hs. unfold handlePlayTTS.
  case_bool_decide; [apply wf_handleStopTTS|].
  apply wf_play_or_generate.
  destruct (currentAudioRef s); [apply wf_handleStopTTS|done].
Qed.

Lemma wf_step s e : wf s → wf (step s e).
Proof.
  intros Hs. destruct e as [resource|k r|a|a]; cbn [step].
  - destruct (disabled s resource); [done|]. by apply wf_handlePlayTTS.
  - destruct (pending s !! k) as [resource|]; [|done].
    unfold handlePlayTTS_resume, start.
    destruct (truthy _); intros b; cbn [currentAudioRef audios].
    + intros [= <-]. rewrite length_app. simpl. lia.
    + apply Hs.
  - destruct (is_playing _ a); [|done]. by intros b.
  - destruct (audios s !! a) as [x|]; [|done].
    destruct (paused x); [done|]. by intros b.
Qed.

Lemma wf_run evs : ∀ s, wf s → wf (run evs s).
Proof.
  induction evs as [|e evs IH]; intros s Hs; [done|].
  apply IH. by apply wf_step.
Qed.

Lemma wf_init : wf init.
Proof. by intros a. Qed.

End ResourceFacts.

(** ** The playback controller: the claims *)

Module ViewClaims.
Import Tts Audio AudioFacts.




(** On the resource surface a generation that completes starts its
    stream without stopping the current one: A and B are requested one
    after the other, and both play once both are generated. *)
Lemma resource_overlap_trace :
  let s := ResourceView.run
             [ResourceView.Click rA; ResourceView.Click rB;
              ResourceView.Resolve 0 (ok "blob:1");
              ResourceView.Resolve 0 (ok "blob:2")]
             ResourceView.init in
  is_playing (ResourceView.audios s) 0 = true ∧
  is_playing (ResourceView.audios s) 1 = true ∧
  ¬ ResourceView.at_most_one_active s.
Proof.
  cbn zeta. repeat split; try reflexivity.
  intros H. specialize (H 0%nat 1%nat eq_refl eq_refl). discriminate.
Qed.

(** C7, as amended: the put of both surfaces stores the new handle
    whether or not the identifier has an entry (the last writer wins);
    the entries of the other identifiers are unchanged. *)
Theorem cache_put_overwrites (r : TTSResponse) (url : string)
    (resource : ResourceView.Resource) (s : ResourceView.state)
    (item : AnnouncementView.Announcement) (t : AnnouncementView.state) :
  truthy (audioUrl r) = Some url →
  let s' := ResourceView.handlePlayTTS_resume resource r s in
  let t' := AnnouncementView.handlePlayTTS_resume item r t in
  ResourceView.audioCache s' !! ResourceView.id resource = Some url ∧
  (∀ j, j ≠ ResourceView.id resource →
        ResourceView.audioCache s' !! j = ResourceView.audioCache s !! j) ∧
  AnnouncementView.audioMap t' !! AnnouncementView.id item = Some url ∧
  (∀ j, j ≠ AnnouncementView.id item →
        AnnouncementView.audioMap t' !! j = AnnouncementView.audioMap t !! j).
Proof.
  intros Hurl. cbn zeta.
  unfold ResourceView.handlePlayTTS_resume, ResourceView.start,
    AnnouncementView.handlePlayTTS_resume.
  rewrite Hurl. cbn [ResourceView.audioCache AnnouncementView.audioMap].
  split; [apply lookup_insert_eq|].
  split; [intros j Hj; by apply lookup_insert_ne|].
  split; [apply lookup_insert_eq|].
  intros j Hj; by apply lookup_insert_ne.
Qed.

Lemma cache_put_overwrites_witness :
  let s' := ResourceView.handlePlayTTS_resume rA (ok "blob:2")
              resource_playing_A in
  let t' := AnnouncementView.handlePlayTTS_resume aA (ok "blob:2")
              announcement_playing_A in
  ResourceView.audioCache s' !! "A" = Some "blob:2" ∧
  (∀ j, j ≠ "A" →
        ResourceView.audioCache s' !! j
        = ResourceView.audioCache resource_playing_A !! j) ∧
  AnnouncementView.audioMap t' !! "A" = Some "blob:2" ∧
  (∀ j, j ≠ "A" →
        AnnouncementView.audioMap t' !! j
        = AnnouncementView.audioMap announcement_playing_A !! j).
Proof.
  apply (cache_put_overwrites (ok "blob:2") "blob:2" rA resource_playing_A
           aA announcement_playing_A).
  reflexivity.
Defined.

(** C7, as stated, fails on both surfaces: A is requested, then B, then
    A again, so that two generations of A are awaited; the first stores
    "blob:1" under A and the second replaces it by "blob:2". *)
Lemma cache_first_writer_counterexample :
  let s := ResourceView.run
             [ResourceView.Click rA; ResourceView.Click rB;
              ResourceView.Click rA; ResourceView.Resolve 0 (ok "blob:1")]
             ResourceView.init in
  let t := AnnouncementView.run
             [AnnouncementView.Click aA; AnnouncementView.Click aB;
              AnnouncementView.Click aA;
              AnnouncementView.Resolve 0 (ok "blob:1")]
             AnnouncementView.init in
  ResourceView.audioCache s !! "A" = Some "blob:1" ∧
  ResourceView.audioCache
    (ResourceView.step s (ResourceView.Resolve 1 (ok "blob:2"))) !! "A"
    = Some "blob:2" ∧
  AnnouncementView.audioMap t !! "A" = Some "blob:1" ∧
  AnnouncementView.audioMap
    (AnnouncementView.step t (AnnouncementView.Resolve 1 (ok "blob:2"))) !! "A"
    = Some "blob:2".
Proof. cbn zeta. repeat split; vm_compute; reflexivity. Qed.









End ViewClaims.

(** ** The encoder: what the data chunk holds, and the quantization rule *)

Module WavExtras.
Import DataView Wav WavLayout WavFacts QuantizationRule QuantizationFacts.

Lemma getInt16_zeros (w : list Z) z d :
  (d + 2 ≤ z)%nat → getInt16 (length w + d) (w ++ replicate z 0) = 0.
Proof.
  intros Hd. unfold getInt16, getUint16, slice.
  rewrite drop_app_add', drop_replicate by done.
  replace (z - d)%nat with (2 + (z - d - 2))%nat by lia.
  rewrite replicate_add, take_app_length' by done.
  reflexivity.
Qed.

Lemma trunc_mono x y : (x <= y)%Q → trunc x ≤ trunc y.
Proof.
  intros Hxy.
  rewrite (trunc_Qeq x (Qnum x * Z.pos (Qden y) # Qden x * Qden y)),
          (trunc_Qeq y (Qnum y * Z.pos (Qden x) # Qden x * Qden y)).
  - unfold trunc; cbn [Qnum Qden]. apply Z.quot_le_mono; [lia|].
    exact Hxy.
  - unfold Qeq; cbn [Qnum Qden]. rewrite Pos2Z.inj_mul. ring.
  - unfold Qeq; cbn [Qnum Qden]. rewrite Pos2Z.inj_mul. ring.
Qed.

Lemma clamp_spec_mono s1 s2 :
  (s1 <= s2)%Q → (clamp_spec s1 <= clamp_spec s2)%Q.
Proof.
  intros H. unfold clamp_spec.
  destruct (Qlt_bool s1 (-1)) eqn:H1, (Qlt_bool s2 (-1)) eqn:H2;
    try destruct (Qlt_bool 1 s1) eqn:H3; try destruct (Qlt_bool 1 s2) eqn:H4;
    repeat match goal with
           | H : Qlt_bool _ _ = true |- _ => apply Qlt_bool_true in H
           | H : Qlt_bool _ _ = false |- _ => apply Qlt_bool_false in H
           end; lra.
Qed.

Lemma quantize_amended_mono s1 s2 :
  (s1 <= s2)%Q → quantize_amended s1 ≤ quantize_amended s2.
Proof.
  intros H%clamp_spec_mono. unfold quantize_amended.
  destruct (clamp_spec_range s1) as [Hlo1 Hhi1].
  destruct (clamp_spec_range s2) as [Hlo2 Hhi2].
  set (c1 := clamp_spec s1) in *. set (c2 := clamp_spec s2) in *.
  destruct (Qlt_bool c1 (-(1 # 2))) eqn:H1, (Qlt_bool c2 (-(1 # 2))) eqn:H2;
    repeat match goal with
           | H : Qlt_bool _ _ = true |- _ => apply Qlt_bool_true in H
           | H : Qlt_bool _ _ = false |- _ => apply Qlt_bool_false in H
           end.
  - apply trunc_mono. lra.
  - transitivity (trunc (-16384 # 1)).
    + apply trunc_mono. lra.
    + apply (trunc_mono (-16384 # 1)). lra.
  - lra.
  - apply trunc_mono. lra.
Qed.

Lemma trunc_near x :
  ((0 <= x)%Q → (trunc x # 1 <= x)%Q ∧ (x < trunc x + 1 # 1)%Q) ∧
  ((x <= 0)%Q → (trunc x - 1 # 1 < x)%Q ∧ (x <= trunc x # 1)%Q).
Proof.
  destruct x as [n d]. unfold Qle, Qlt, trunc. cbn [Qnum Qden].
  pose proof (Z.quot_rem' n (Z.pos d)) as Hqr.
  split; intros Hx.
  - pose proof (Z.rem_bound_pos n (Z.pos d) ltac:(lia) ltac:(lia)). nia.
  - pose proof (Z.rem_opp_l (- n) (Z.pos d) ltac:(lia)) as Hopp.
    rewrite Z.opp_involutive in Hopp.
    pose proof (Z.rem_bound_pos (- n) (Z.pos d) ltac:(lia) ltac:(lia)). nia.
Qed.

Lemma clamp_spec_id s : (-1 <= s)%Q → (s <= 1)%Q → clamp_spec s = s.
Proof.
  intros Hlo Hhi. unfold clamp_spec.
  destruct (Qlt_bool s (-1)) eqn:H1; [apply Qlt_bool_true in H1; lra|].
  destruct (Qlt_bool 1 s) eqn:H2; [apply Qlt_bool_true in H2; lra|done].
Qed.

(** X1: for a valid buffer, the data chunk holds, in interleaved order from
    its first 16-bit value on, the quantized samples of the frames 44,
    45, ..., N-1, and zeros in all the values after them (the place of
    44 frames, or of all N when N is at most 44). *)
Theorem audioBufferToWav_data (b : AudioBuffer.t) :
  AudioBuffer.valid b →
  let C := AudioBuffer.numberOfChannels b in
  let N := AudioBuffer.length b in
  ∃ blob, audioBufferToWav b = Ok blob ∧
    (∀ i p ch s,
       AudioBuffer.channelData b !! i = Some ch → ch !! p = Some s →
       (44 ≤ p)%nat →
       getInt16 (44 + 2 * ((p - 44) * C + i)) (blob_bytes blob)
       = quantize (Some s)) ∧
    (∀ j, ((N - 44) * C ≤ j)%nat → (j < N * C)%nat →
          getInt16 (44 + 2 * j) (blob_bytes blob) = 0).
Proof.
  intros Hv C N. pose proof Hv as (_ & _ & HC & _).
  eexists. split; [by apply audioBufferToWav_bytes|]. split.
  - intros i p ch s Hch Hs Hp.
    destruct (WavClaims.audioBufferToWav_emitted b i p ch s Hv Hch Hs Hp)
      as (blob & Hb & Hget).
    rewrite audioBufferToWav_bytes in Hb by done. injection Hb as <-.
    by rewrite quantize_quantize_amended.
  - intros j Hlo Hhi. cbn [blob_bytes]. fold C N. rewrite app_assoc.
    replace (44 + 2 * j)%nat
      with (length (header_bytes C (N * C * 2 + 44) (AudioBuffer.sampleRate b)
                      ++ frames_bytes (AudioBuffer.channelData b) 44 (N - 44))
            + 2 * (j - (N - 44) * C))%nat.
    + apply getInt16_zeros. nia.
    + rewrite length_app, length_header_bytes, length_frames_bytes, HC.
      fold C. nia.
Qed.

Lemma audioBufferToWav_data_witness :
  ∃ blob, audioBufferToWav half_buffer = Ok blob ∧
    (∀ i p ch s,
       AudioBuffer.channelData half_buffer !! i = Some ch → ch !! p = Some s →
       (44 ≤ p)%nat →
       getInt16 (44 + 2 * ((p - 44) * 1 + i)) (blob_bytes blob)
       = quantize (Some s)) ∧
    (∀ j, ((45 - 44) * 1 ≤ j)%nat → (j < 45 * 1)%nat →
          getInt16 (44 + 2 * j) (blob_bytes blob) = 0).
Proof.
  apply (audioBufferToWav_data half_buffer).
  unfold AudioBuffer.valid; simpl.
  split; [lia|split; [lia|split; [reflexivity|repeat constructor]]].
Defined.

(** X2: the quantization of lines 142-143 is monotone: a larger sample is
    never emitted as a smaller 16-bit value. *)
Theorem quantize_monotone (s1 s2 : Q) :
  (s1 <= s2)%Q → quantize (Some s1) ≤ quantize (Some s2).
Proof.
  intros H. rewrite !quantize_quantize_amended.
  by apply quantize_amended_mono.
Qed.

Lemma quantize_monotone_witness :
  quantize (Some (-0.5)%Q) ≤ quantize (Some (-0.25)%Q).
Proof.
  apply (quantize_monotone (-0.5)%Q (-0.25)%Q).
  unfold Qle; simpl; lia.
Defined.

(** X3: every emitted value fits 16 bits, so neither [| 0] nor [setInt16]
    wraps; samples at or beyond the ends of [-1,1] saturate to 32767 and
    -32768; 0 goes to 0 and the sign is kept; an element read off the end
    of a channel is emitted as 0. *)
Theorem quantize_range_saturation :
  (∀ s, -32768 ≤ quantize (Some s) ≤ 32767) ∧
  (∀ s, (1 <= s)%Q → quantize (Some s) = 32767) ∧
  (∀ s, (s <= -1)%Q → quantize (Some s) = -32768) ∧
  quantize (Some 0%Q) = 0 ∧
  (∀ s, (0 <= s)%Q → 0 ≤ quantize (Some s)) ∧
  (∀ s, (s <= 0)%Q → quantize (Some s) ≤ 0) ∧
  quantize None = 0.
Proof.
  assert (∀ s, -32768 ≤ quantize (Some s) ≤ 32767) as Hr.
  { intros s. rewrite quantize_quantize_amended.
    apply quantize_amended_range. }
  assert (∀ s1 s2, (s1 <= s2)%Q → quantize (Some s1) ≤ quantize (Some s2))
    as Hm.
  { intros s1 s2 H. rewrite !quantize_quantize_amended.
    by apply quantize_amended_mono. }
  split; [done|]. split; [|split; [|split; [done|split; [|split; [|done]]]]].
  - intros s Hs. specialize (Hm _ _ Hs). specialize (Hr s).
    change (quantize (Some 1%Q)) with 32767 in Hm. lia.
  - intros s Hs. specialize (Hm _ _ Hs). specialize (Hr s).
    change (quantize (Some (-1)%Q)) with (-32768) in Hm. lia.
  - intros s Hs. by specialize (Hm _ _ Hs).
  - intros s Hs. by specialize (Hm _ _ Hs).
Qed.

(** X4: for a sample s in [-1,1], the emitted value v is within 2 of
    32768 * s: read back the usual way, as v / 32768, it is within
    1/16384 of s. *)
Theorem quantize_error (s : Q) :
  (-1 <= s)%Q → (s <= 1)%Q →
  let v := quantize (Some s) in
  ((v # 1) - 2 < 32768 * s)%Q ∧ (32768 * s < (v # 1) + 2)%Q.
Proof.
  intros Hlo Hhi. cbn zeta. rewrite quantize_quantize_amended.
  unfold quantize_amended. rewrite clamp_spec_id by done.
  destruct (Qlt_bool s (-(1 # 2))) eqn:Hc.
  - apply Qlt_bool_true in Hc.
    destruct (trunc_near (s * 32768)) as [_ Hneg].
    destruct Hneg as [H1 H2]; [lra|].
    set (t := trunc (s * 32768)) in *.
    assert ((t - 1 # 1) == (t # 1) - 1)%Q as E
      by (unfold Qeq, Qminus, Qplus, Qopp; cbn [Qnum Qden]; lia).
    rewrite E in H1. split; lra.
  - apply Qlt_bool_false in Hc.
    destruct (trunc_near (s * 32767)) as [Hpos Hneg].
    set (t := trunc (s * 32767)) in *.
    assert ((t - 1 # 1) == (t # 1) - 1)%Q as E1
      by (unfold Qeq, Qminus, Qplus, Qopp; cbn [Qnum Qden]; lia).
    assert ((t + 1 # 1) == (t # 1) + 1)%Q as E2
      by (unfold Qeq, Qplus; cbn [Qnum Qden]; lia).
    destruct (Qlt_le_dec s 0) as [Hs|Hs].
    + destruct Hneg as [H1 H2]; [lra|]. rewrite E1 in H1. split; lra.
    + destruct Hpos as [H1 H2]; [lra|]. rewrite E2 in H2. split; lra.
Qed.

Lemma quantize_error_witness :
  let v := quantize (Some (1 # 2)%Q) in
  ((v # 1) - 2 < 32768 * (1 # 2))%Q ∧ (32768 * (1 # 2) < (v # 1) + 2)%Q.
Proof.
  apply (quantize_error (1 # 2)%Q).
  - unfold Qle; simpl; lia.
  - unfold Qle; simpl; lia.
Defined.

(** X19: the numeric fields of the header, read back as little-endian
    numbers, are the total length minus 8, 16, 1, C, R, R*2*C, 2*C and 16
    themselves whenever 2*C fits 16 bits and R*2*C and the total length fit
    32 bits. *)
Theorem header_values_read_back (b : AudioBuffer.t) :
  AudioBuffer.valid b →
  let C := Z.of_nat (AudioBuffer.numberOfChannels b) in
  let R := AudioBuffer.sampleRate b in
  let total := 44 + Z.of_nat (AudioBuffer.length b) * C * 2 in
  2 * C < 2 ^ 16 → R * 2 * C < 2 ^ 32 → total < 2 ^ 32 →
  ∃ blob, audioBufferToWav b = Ok blob ∧
    let out := blob_bytes blob in
    getUint32 4 out = total - 8 ∧
    getUint32 16 out = 16 ∧
    getUint16 20 out = 1 ∧
    getUint16 22 out = C ∧
    getUint32 24 out = R ∧
    getUint32 28 out = R * 2 * C ∧
    getUint16 32 out = 2 * C ∧
    getUint16 34 out = 16.
Proof. exact (WavClaims.audioBufferToWav_header_values b). Qed.

Lemma header_values_read_back_witness :
  ∃ blob, audioBufferToWav sample_buffer = Ok blob ∧
    let out := blob_bytes blob in
    getUint32 4 out = 44 + 4 * 1 * 2 - 8 ∧
    getUint32 16 out = 16 ∧
    getUint16 20 out = 1 ∧
    getUint16 22 out = 1 ∧
    getUint32 24 out = 24000 ∧
    getUint32 28 out = 24000 * 2 * 1 ∧
    getUint16 32 out = 2 * 1 ∧
    getUint16 34 out = 16.
Proof.
  apply (header_values_read_back sample_buffer).
  - unfold AudioBuffer.valid; simpl.
    split; [lia|split; [lia|split; [reflexivity|repeat constructor]]].
  - reflexivity.
  - reflexivity.
  - reflexivity.
Defined.

End WavExtras.

(** ** generateTTS, generateStudyGuide, transcribeAudio: more properties *)

Module GeminiExtras.
Import Tts Gemini WavLayout.

(** X5: when every external call returns and the audio data is not empty,
    [generateTTS] returns the URL made for a Blob of type audio/wav that
    holds the output of the encoder for the decoded buffer, 44 + N*C*2
    bytes: with all its channels there, the encoder is never what fails. *)
Theorem generateTTS_success
    (generateContent : string → result (option string))
    (newAudioContext : Z → result unit)
    (decode : string → result (list Z))
    (decodeAudioData : list Z → unit → Z → nat → result AudioBuffer.t)
    (createObjectURL : Wav.Blob → result string)
    (text data url : string) (ctx : unit) (bytes : list Z)
    (b : AudioBuffer.t) :
  generateContent text = Ok (Some data) →
  data ≠ EmptyString →
  newAudioContext 24000 = Ok ctx →
  decode data = Ok bytes →
  decodeAudioData bytes ctx 24000 1%nat = Ok b →
  length (AudioBuffer.channelData b) = AudioBuffer.numberOfChannels b →
  let C := AudioBuffer.numberOfChannels b in
  let N := AudioBuffer.length b in
  let out := header_bytes C (N * C * 2 + 44) (AudioBuffer.sampleRate b)
             ++ frames_bytes (AudioBuffer.channelData b) 44 (N - 44)
             ++ replicate (N * C * 2 - (N - 44) * (2 * C)) 0 in
  createObjectURL (Wav.mkBlob out "audio/wav") = Ok url →
  generateTTS generateContent newAudioContext decode decodeAudioData
    createObjectURL text = Ok (mkTTSResponse (Some url) None) ∧
  length out = (44 + N * C * 2)%nat.
Proof.
  intros Hg Hd Hctx Hdec Hbuf HC C N out Hurl. split.
  - unfold generateTTS, generateTTS_try. rewrite Hg.
    cbn [mbind result_bind].
    destruct data as [|c data]; [done|]. cbn [truthy].
    rewrite Hctx. cbn [mbind result_bind]. rewrite Hdec.
    cbn [mbind result_bind]. rewrite Hbuf. cbn [mbind result_bind].
    rewrite (WavFacts.audioBufferToWav_bytes b HC).
    cbn [mbind result_bind]. fold C N out. by rewrite Hurl.
  - unfold out, C, N. rewrite (WavFacts.length_output b HC). lia.
Qed.

Lemma generateTTS_success_witness :
  let out := header_bytes 1 (4 * 1 * 2 + 44) 24000
             ++ frames_bytes (AudioBuffer.channelData sample_buffer) 44 (4 - 44)
             ++ replicate (4 * 1 * 2 - (4 - 44) * (2 * 1)) 0 in
  generateTTS (λ _, Ok (Some "UklGRg==")) (λ _, Ok ()) (λ _, Ok [82; 73])
    (λ _ _ _ _, Ok sample_buffer) (λ _, Ok "blob:1") "Hello"
  = Ok (mkTTSResponse (Some "blob:1") None) ∧
  length out = (44 + 4 * 1 * 2)%nat.
Proof.
  apply (generateTTS_success (λ _, Ok (Some "UklGRg==")) (λ _, Ok ())
           (λ _, Ok [82; 73]) (λ _ _ _ _, Ok sample_buffer) (λ _, Ok "blob:1")
           "Hello" "UklGRg==" "blob:1" () [82; 73] sample_buffer).
  - reflexivity.
  - discriminate.
  - reflexivity.
  - reflexivity.
  - reflexivity.
  - reflexivity.
  - reflexivity.
Defined.

Lemma generateStudyGuide_total' (Chunk : Type)
    (generateContent : Request → result (Response Chunk))
    (resourceContent : string) :
  ∃ g, generateStudyGuide Chunk generateContent resourceContent = Ok g ∧
       text g ≠ EmptyString.
Proof.
  unfold generateStudyGuide.
  destruct (generateContent _) as [r|e]; cbn [mbind result_bind].
  - eexists. split; [done|]. cbn [text].
    destruct (truthy (response_text r)) as [t|] eqn:Ht; [|done].
    cbn [default]. by apply TtsFacts.truthy_nonempty in Ht.
  - eexists. split; [done|]. done.
Qed.

(** X6: whatever the request does, [generateStudyGuide] returns (it does
    not throw) a guide whose text is not empty; when the request throws
    the guide is the fixed error text with no sources, and when the
    response has no text it is "No content generated.". *)
Theorem generateStudyGuide_total (Chunk : Type)
    (generateContent : Request → result (Response Chunk))
    (resourceContent : string) :
  (∃ g, generateStudyGuide Chunk generateContent resourceContent = Ok g ∧
        text g ≠ EmptyString) ∧
  (∀ e, generateStudyGuide Chunk (λ _, Throw e) resourceContent =
        Ok (mkStudyGuide "Error generating study guide. Please try again." [])) ∧
  (∀ chunks, generateStudyGuide Chunk (λ _, Ok (mkResponse None chunks))
               resourceContent =
             Ok (mkStudyGuide "No content generated." (default [] chunks))) ∧
  (∀ t chunks, t ≠ EmptyString →
     generateStudyGuide Chunk (λ _, Ok (mkResponse (Some t) chunks))
       resourceContent = Ok (mkStudyGuide t (default [] chunks))).
Proof.
  split; [|split; [done|split; [done|]]].
  - apply generateStudyGuide_total'.
  - intros t chunks Ht. unfold generateStudyGuide. cbn [mbind result_bind].
    by destruct t.
Qed.

End GeminiExtras.

(** ** The chat view: properties *)

Module ChatExtras.
Import Tts ChatView.



Lemma until_comma_app (p rest : string) :
  comma_free p = true →
  until_comma (p +:+ String ","%char rest) = (p, Some rest).
Proof.
  induction p as [|c p IH]; [done|].
  change (String c p +:+ String ","%char rest)
    with (String c (p +:+ String ","%char rest)).
  cbn [comma_free until_comma].
  intros [Hc Hp]%andb_prop. apply negb_true_iff in Hc. rewrite Hc.
  by rewrite IH.
Qed.

Lemma until_comma_free (p : string) :
  comma_free p = true → until_comma p = (p, None).
Proof.
  induction p as [|c p IH]; [done|]. cbn [comma_free until_comma].
  intros [Hc Hp]%andb_prop. apply negb_true_iff in Hc. rewrite Hc.
  by rewrite IH.
Qed.

(** X7: [split(',')[1]] takes the payload out of a data URL: for a prefix
    and a payload without a comma, the piece it returns from
    prefix + "," + payload is the payload; a string without a comma gives
    [undefined]. *)
Theorem split_1_data_url (prefix payload : string) :
  comma_free prefix = true → comma_free payload = true →
  split_1 (prefix +:+ "," +:+ payload) = Some payload ∧
  split_1 prefix = None.
Proof.
  intros Hp Hd. unfold split_1. split.
  - change ("," +:+ payload) with (String ","%char payload).
    rewrite until_comma_app by done. cbn [snd].
    by rewrite until_comma_free.
  - by rewrite until_comma_free.
Qed.

Lemma split_1_data_url_witness :
  split_1 ("data:audio/webm;base64" +:+ "," +:+ "GkXfo59ChoEB")
  = Some "GkXfo59ChoEB" ∧
  split_1 "data:audio/webm;base64" = None.
Proof.
  apply (split_1_data_url "data:audio/webm;base64" "GkXfo59ChoEB").
  - reflexivity.
  - reflexivity.
Defined.




Section Submit.
Variable trim : string → string.
Variable toString : Z → string.



(** X10: dictation.  When [transcribeAudio] throws, which it does whenever
    its request throws, the callback stops there: the state is as it was,
    [isTranscribing] included, which [onstop] has set.  When it returns a
    text, the text is appended to the input after a space (or becomes the
    input when that is empty), trimmed, and [isTranscribing] is cleared;
    when it returns no text only [isTranscribing] changes. *)
Theorem dictation_outcome (Chunk : Type) (base64String : string) (s : state) :
  (∀ e, onloadend trim base64String
          (Gemini.transcribeAudio Chunk (λ _, Throw e)) (onstop s) = onstop s ∧
        isTranscribing (onstop s) = true) ∧
  (∀ t chunks, t ≠ EmptyString →
     onloadend trim base64String
       (Gemini.transcribeAudio Chunk
          (λ _, Ok (Gemini.mkResponse (Some t) chunks))) (onstop s) =
     mkState (messages s)
       (trim (if decide (input s = EmptyString) then t
              else input s +:+ " " +:+ t))
       (isLoading s) (isRecording s) false (hasSession s)) ∧
  (∀ chunks,
     onloadend trim base64String
       (Gemini.transcribeAudio Chunk
          (λ _, Ok (Gemini.mkResponse None chunks))) (onstop s) =
     mkState (messages s) (input s) (isLoading s) (isRecording s) false
             (hasSession s)).
Proof.
  split; [done|]. split; [|done].
  intros t chunks Ht. unfold onloadend, Gemini.transcribeAudio.
  cbn [mbind result_bind Gemini.response_text].
  destruct t as [|c t]; [done|]. cbn [truthy default].
  unfold append_dictation. cbn [onstop input messages isLoading isRecording hasSession].
  by destruct (input s).
Qed.

End Submit.



End ChatExtras.

(** ** The TTS state of the views: what every reachable state satisfies *)

Module TtsInvariants.
Import Tts Audio AudioFacts.

Lemma is_playing_snoc_new (l : list Audio.t) url gen :
  is_playing (l ++ [Audio.playing url gen]) (length l) = true.
Proof.
  unfold is_playing. rewrite lookup_app_r by lia.
  by rewrite Nat.sub_diag.
Qed.

Lemma truthy_Some_ne (v : option string) url :
  truthy v = Some url → url ≠ EmptyString.
Proof. apply TtsFacts.truthy_nonempty. Qed.

Section Resource.
Import ResourceView.

Lemma invariant_init : ResourceNav.tts_invariant init.
Proof.
  split; [done|]. split; [|done].
  cbn. split; intros [? ?]; done.
Qed.

Lemma invariant_handleStopTTS t : ResourceNav.tts_invariant t → ResourceNav.tts_invariant (handleStopTTS t).
Proof.
  intros (_ & _ & H3). unfold handleStopTTS.
  destruct (currentAudioRef t); (split; [done|]); (split; [|done]);
    cbn; split; intros [? ?]; done.
Qed.

Lemma invariant_start rid url gen t :
  (∀ i u, audioCache t !! i = Some u → u ≠ EmptyString) →
  ResourceNav.tts_invariant (start rid url gen t).
Proof.
  intros H3. split; [|split; [|done]].
  - intros a. cbn [start currentAudioRef audios]. intros [= <-].
    apply is_playing_snoc_new.
  - cbn. split; intros _; eauto.
Qed.

Lemma invariant_play_or_generate resource t :
  currentAudioRef t = None → ResourceNav.tts_invariant t →
  ResourceNav.tts_invariant (play_or_generate resource t).
Proof.
  intros Hcur (H1 & H2 & H3). unfold play_or_generate.
  destruct (truthy _); [by apply invariant_start|].
  split; [|split; [|done]]; cbn [currentAudioRef audios playingResourceId].
  - by rewrite Hcur.
  - done.
Qed.

Lemma invariant_handlePlayTTS resource t :
  ResourceNav.tts_invariant t → ResourceNav.tts_invariant (handlePlayTTS resource t).
Proof.
  intros Ht. unfold handlePlayTTS.
  case_bool_decide; [by apply invariant_handleStopTTS|].
  destruct (currentAudioRef t) eqn:Hcur.
  - apply invariant_play_or_generate; [|by apply invariant_handleStopTTS].
    unfold handleStopTTS. by rewrite Hcur.
  - by apply invariant_play_or_generate.
Qed.

Lemma invariant_step t e : ResourceNav.tts_invariant t → ResourceNav.tts_invariant (step t e).
Proof.
  intros Ht. pose proof Ht as (H1 & H2 & H3).
  destruct e as [resource|k r|a|a]; cbn [step].
  - destruct (disabled t resource); [done|]. by apply invariant_handlePlayTTS.
  - destruct (pending t !! k) as [resource|]; [|done].
    unfold handlePlayTTS_resume.
    destruct (truthy (audioUrl r)) as [url|] eqn:Hurl.
    + apply invariant_start. cbn [audioCache]. intros i u.
      destruct (decide (id resource = i)) as [<-|Hne].
      * rewrite lookup_insert_eq. intros [= <-].
        by apply truthy_Some_ne in Hurl.
      * rewrite lookup_insert_ne by done. apply H3.
    + done.
  - destruct (is_playing _ a); [|done].
    split; [done|]. split; [|done]. cbn. split; intros [? ?]; done.
  - destruct (audios t !! a) as [x|]; [|done].
    destruct (paused x); [done|].
    split; [done|]. split; [|done]. cbn. split; intros [? ?]; done.
Qed.

Lemma invariant_back_audio t :
  ResourceNav.tts_invariant t → ResourceNav.tts_invariant (ResourceNav.back_audio t).
Proof.
  intros Ht. pose proof Ht as (H1 & H2 & H3). unfold ResourceNav.back_audio.
  destruct (currentAudioRef t); [|done].
  split; [done|]. split; [|done]. cbn. split; intros [? ?]; done.
Qed.

Lemma only_current_silent t :
  only_current t → currentAudioRef t = None →
  ∀ b, is_playing (audios t) b = false.
Proof.
  intros Ht Hcur b. destruct (is_playing (audios t) b) eqn:Hb; [|done].
  apply Ht in Hb. congruence.
Qed.

Lemma only_current_pause t a :
  only_current t → is_playing (audios t) a = true →
  ∀ b, is_playing (alter Audio.pause a (audios t)) b = false.
Proof.
  intros Ht Ha b. destruct (decide (a = b)) as [->|Hne];
    [apply is_playing_pause_eq|].
  rewrite is_playing_pause_ne by done.
  destruct (is_playing (audios t) b) eqn:Hb; [|done].
  apply Ht in Hb. apply Ht in Ha. congruence.
Qed.

Lemma only_current_handlePlayTTS resource t :
  only_current t → only_current (handlePlayTTS resource t).
Proof.
  intros Ht. unfold handlePlayTTS. case_bool_decide.
  - intros b. by rewrite ResourceFacts.handleStopTTS_silent.
  - apply ResourceFacts.play_or_generate_only_current.
    destruct (currentAudioRef t) eqn:Hcur.
    + by apply ResourceFacts.handleStopTTS_silent.
    + by apply only_current_silent.
Qed.

(** Every event but a generation that completes with audio while an element
    is the current one keeps the active streams to the current one. *)
Lemma only_current_step t e :
  only_current t →
  match e with
  | Resolve k r => currentAudioRef t = None ∨ truthy (audioUrl r) = None
  | _ => True
  end →
  only_current (step t e).
Proof.
  intros Ht He. destruct e as [resource|k r|a|a]; cbn [step].
  - destruct (disabled t resource); [done|].
    by apply only_current_handlePlayTTS.
  - destruct (pending t !! k) as [resource|]; [|done].
    unfold handlePlayTTS_resume.
    destruct (truthy (audioUrl r)) as [url|] eqn:Hurl.
    + destruct He as [Hcur|?]; [|done].
      intros b. unfold start. cbn [audios currentAudioRef].
      intros [Hb| ->]%is_playing_snoc; [|done].
      by rewrite (only_current_silent t Ht Hcur) in Hb.
    + done.
  - destruct (is_playing _ a) eqn:Ha; [|done].
    intros b. cbn [onended audios]. by rewrite only_current_pause.
  - destruct (audios t !! a) as [x|] eqn:Hx; [|done].
    destruct (paused x) eqn:Hp; [done|].
    intros b. cbn [onerror audios]. rewrite only_current_pause; [done..|].
    unfold is_playing. by rewrite Hx, Hp.
Qed.

Lemma only_current_back_audio t :
  only_current t → only_current (ResourceNav.back_audio t).
Proof.
  intros Ht. unfold ResourceNav.back_audio.
  destruct (currentAudioRef t) as [a|] eqn:Hcur; [|done].
  intros b. cbn [audios].
  destruct (is_playing (audios t) a) eqn:Ha.
  - by rewrite only_current_pause.
  - destruct (decide (a = b)) as [->|Hne];
      [by rewrite is_playing_pause_eq|].
    rewrite is_playing_pause_ne by done. intros Hb%Ht. congruence.
Qed.

Lemma cache_step t e : dom (audioCache t) ⊆ dom (audioCache (step t e)).
Proof.
  destruct e as [resource|k r|a|a]; cbn [step].
  - destruct (disabled t resource); [done|].
    unfold handlePlayTTS, handleStopTTS, play_or_generate, start.
    repeat (case_bool_decide || case_match); done.
  - destruct (pending t !! k) as [resource|]; [|done].
    unfold handlePlayTTS_resume, start.
    destruct (truthy (audioUrl r)); cbn [audioCache]; [|done].
    rewrite dom_insert_L. set_solver.
  - by destruct (is_playing _ a).
  - destruct (audios t !! a) as [x|]; [|done]. by destruct (paused x).
Qed.

End Resource.

Section Announcement.
Import AnnouncementView.

Lemma announcement_cache_step t e :
  dom (audioMap t) ⊆ dom (audioMap (step t e)) ∧
  ((∀ i u, audioMap t !! i = Some u → u ≠ EmptyString) →
   ∀ i u, audioMap (step t e) !! i = Some u → u ≠ EmptyString).
Proof.
  destruct e as [item|k r|a|a]; cbn [step].
  - destruct (disabled t item); [done|]. unfold handlePlayTTS.
    case_bool_decide; [done|]. by destruct (truthy _).
  - destruct (pending t !! k) as [item|]; [|done].
    unfold handlePlayTTS_resume.
    destruct (truthy (audioUrl r)) as [url|] eqn:Hurl; cbn [audioMap]; [|done].
    split; [rewrite dom_insert_L; set_solver|].
    intros H3 i u. destruct (decide (id item = i)) as [<-|Hne].
    + rewrite lookup_insert_eq. intros [= <-]. by apply truthy_Some_ne in Hurl.
    + rewrite lookup_insert_ne by done. apply H3.
  - by destruct (is_playing _ a).
  - by destruct (is_playing _ a).
Qed.

End Announcement.

End TtsInvariants.

(** ** The resource view as a whole, and the caches of both views *)

Module ResourceExtras.
Import Tts Audio AudioFacts TtsInvariants.

Section Component.
Variable Chunk : Type.
Variable trim : string → string.
Variable toLowerCase : string → string.
Variable sortByTitle : list ResourceNav.Resource → list ResourceNav.Resource.

Implicit Types (s : ResourceNav.state Chunk).
Implicit Types (e : ResourceNav.event Chunk).

Local Abbreviation step_event :=
  (ResourceNav.step_event trim toLowerCase sortByTitle).
Local Abbreviation run := (ResourceNav.run trim toLowerCase sortByTitle).
Local Abbreviation sequential :=
  (ResourceNav.sequential trim toLowerCase sortByTitle).

(** An event of the component leaves the TTS state as it is, or is an event
    of the TTS handlers, or stops the audio as [handleBack] does. *)
Lemma tts_step_event s e :
  ResourceNav.tts (step_event s e) = ResourceNav.tts s ∨
  (∃ ev, e = ResourceNav.TtsEvent ev ∧
         ResourceNav.tts (step_event s e)
         = ResourceView.step (ResourceNav.tts s) ev) ∨
  ResourceNav.tts (step_event s e) = ResourceNav.back_audio (ResourceNav.tts s).
Proof.
  destruct e; cbn [ResourceNav.step_event]; try (by left).
  - left. by destruct outcome.
  - left. unfold ResourceNav.performSearch. by case_bool_decide.
  - left. by destruct outcome.
  - right; right. unfold ResourceNav.handleBack. by destruct (ResourceNav.step s).
  - unfold ResourceNav.clearSearch. case_decide as Hs; [|by left].
    right; right. unfold ResourceNav.handleBack. cbn [ResourceNav.step].
    by rewrite Hs.
  - left. unfold ResourceNav.handleDelete, ResourceNav.handleDelete_settle.
    destruct (ResourceNav.handleDelete_requested _ _); [|done].
    by destruct outcome.
  - left. by destruct outcome.
  - right; left. eauto.
Qed.

Lemma invariant_run evs : ∀ s,
  ResourceNav.tts_invariant (ResourceNav.tts s) →
  ResourceNav.tts_invariant (ResourceNav.tts (run evs s)).
Proof.
  induction evs as [|e evs IH]; intros s Hs; [done|].
  cbn [ResourceNav.run foldl]. apply IH.
  destruct (tts_step_event s e) as [-> | [(ev & _ & ->) | ->]];
    [done|by apply invariant_step|by apply invariant_back_audio].
Qed.

(** X11: in every state the component can reach, by any sequence of
    navigation, search, deletion, guide and TTS events with any outcomes,
    the element [currentAudioRef] holds exists and is playing, a resource
    is marked as playing exactly when an element is the current one, and
    no URL in the cache is empty. *)
Theorem component_tts_invariant (evs : list (ResourceNav.event Chunk)) :
  let t := ResourceNav.tts (run evs ResourceNav.init) in
  (∀ a, ResourceView.currentAudioRef t = Some a →
        (a < length (ResourceView.audios t))%nat ∧
        is_playing (ResourceView.audios t) a = true) ∧
  (is_Some (ResourceView.playingResourceId t) ↔
   is_Some (ResourceView.currentAudioRef t)) ∧
  (∀ i url, ResourceView.audioCache t !! i = Some url → url ≠ EmptyString).
Proof.
  cbn zeta.
  pose proof (invariant_run evs ResourceNav.init invariant_init)
    as (H1 & H2 & H3).
  split; [|done]. intros a Ha. specialize (H1 a Ha).
  split; [by apply is_playing_lt|done].
Qed.

Lemma only_current_run evs : ∀ s,
  ResourceView.only_current (ResourceNav.tts s) →
  sequential evs s →
  ResourceView.only_current (ResourceNav.tts (run evs s)).
Proof.
  induction evs as [|e evs IH]; intros s Hs Hseq; [done|].
  cbn [ResourceNav.run foldl]. destruct Hseq as [He Hseq].
  apply IH; [|done].
  destruct (tts_step_event s e) as [-> | [(ev & -> & ->) | ->]];
    [done| |by apply only_current_back_audio].
  apply only_current_step; [done|]. by destruct ev.
Qed.

(** X12: along a sequence of events on which a generation that brings
    audio completes only when no element is the current one, every active
    stream is the current element: at most one stream is active. *)
Theorem sequential_single_stream (evs : list (ResourceNav.event Chunk)) :
  sequential evs ResourceNav.init →
  let t := ResourceNav.tts (run evs ResourceNav.init) in
  ResourceView.only_current t ∧ ResourceView.at_most_one_active t.
Proof.
  intros Hseq. cbn zeta.
  assert (ResourceView.only_current
            (ResourceNav.tts (run evs ResourceNav.init))) as H.
  { apply only_current_run; [|done]. by intros a. }
  split; [done|]. by apply ResourceFacts.only_current_at_most_one.
Qed.

Lemma cache_run evs : ∀ s,
  dom (ResourceView.audioCache (ResourceNav.tts s))
  ⊆ dom (ResourceView.audioCache (ResourceNav.tts (run evs s))).
Proof.
  induction evs as [|e evs IH]; intros s; [done|].
  cbn [ResourceNav.run foldl]. etrans; [|apply IH].
  destruct (tts_step_event s e) as [-> | [(ev & _ & ->) | ->]];
    [done|apply cache_step|].
  unfold ResourceNav.back_audio.
  by destruct (ResourceView.currentAudioRef _).
Qed.

Lemma announcement_cache_run evs : ∀ t,
  dom (AnnouncementView.audioMap t)
  ⊆ dom (AnnouncementView.audioMap (AnnouncementView.run evs t)) ∧
  ((∀ i u, AnnouncementView.audioMap t !! i = Some u → u ≠ EmptyString) →
   ∀ i u, AnnouncementView.audioMap (AnnouncementView.run evs t) !! i = Some u →
          u ≠ EmptyString).
Proof.
  induction evs as [|e evs IH]; intros t; [done|].
  cbn [AnnouncementView.run foldl].
  destruct (announcement_cache_step t e) as [Hd Ht].
  destruct (IH (AnnouncementView.step t e)) as [Hd' Ht'].
  split; [by etrans|]. intros H. by apply Ht', Ht.
Qed.

(** X13: neither view ever removes an entry of its cache: an identifier that
    has a cached URL keeps one through every sequence of events (the URL
    may be replaced by a later one), and on the announcement surface as on
    the resource surface no cached URL is empty. *)
Theorem cache_never_evicts
    (evs : list (ResourceNav.event Chunk))
    (s : ResourceNav.state Chunk)
    (evs' : list AnnouncementView.event) (t : AnnouncementView.state) :
  dom (ResourceView.audioCache (ResourceNav.tts s))
  ⊆ dom (ResourceView.audioCache (ResourceNav.tts (run evs s))) ∧
  dom (AnnouncementView.audioMap t)
  ⊆ dom (AnnouncementView.audioMap (AnnouncementView.run evs' t)) ∧
  (∀ i u, AnnouncementView.audioMap
            (AnnouncementView.run evs' AnnouncementView.init) !! i = Some u →
          u ≠ EmptyString).
Proof.
  split; [apply cache_run|]. split; [apply announcement_cache_run|].
  by apply announcement_cache_run.
Qed.

End Component.

Lemma sequential_single_stream_witness :
  let t := ResourceNav.tts
             (ResourceNav.run trim_none trim_none (λ l, l) reading_A_then_B
                ResourceNav.init) in
  ResourceView.only_current t ∧ ResourceView.at_most_one_active t.
Proof.
  apply (sequential_single_stream () trim_none trim_none (λ l, l)
           reading_A_then_B).
  simpl. repeat split; left; reflexivity.
Defined.

End ResourceExtras.

(** ** Cache hits, going back, deleting, guides and search *)

Module NavExtras.
Import Tts Audio AudioFacts TtsInvariants.

(** X14: a request for an identifier whose audio is cached, and which is
    not the one marked as playing, plays the cached URL at once on both
    surfaces: a new element with that URL is playing (on the resource
    surface it is the current one), the identifier is marked as playing,
    and no generation is issued: the awaited calls, the generating mark
    and the cache are as they were. *)
Theorem cache_hit_plays (url : string)
    (resource : ResourceView.Resource) (s : ResourceView.state)
    (item : AnnouncementView.Announcement) (t : AnnouncementView.state) :
  truthy (ResourceView.audioCache s !! ResourceView.id resource) = Some url →
  ResourceView.playingResourceId s ≠ Some (ResourceView.id resource) →
  truthy (AnnouncementView.audioMap t !! AnnouncementView.id item) = Some url →
  AnnouncementView.playingId t ≠ Some (AnnouncementView.id item) →
  let s' := ResourceView.handlePlayTTS resource s in
  let t' := AnnouncementView.handlePlayTTS item t in
  (ResourceView.pending s' = ResourceView.pending s ∧
   ResourceView.generatingAudioId s' = ResourceView.generatingAudioId s ∧
   ResourceView.audioCache s' = ResourceView.audioCache s ∧
   ResourceView.playingResourceId s' = Some (ResourceView.id resource) ∧
   ResourceView.currentAudioRef s' = Some (length (ResourceView.audios s)) ∧
   ResourceView.audios s' !! length (ResourceView.audios s)
   = Some (Audio.playing url false) ∧
   length (ResourceView.audios s') = S (length (ResourceView.audios s))) ∧
  (AnnouncementView.pending t' = AnnouncementView.pending t ∧
   AnnouncementView.audioMap t' = AnnouncementView.audioMap t ∧
   AnnouncementView.playingId t' = Some (AnnouncementView.id item) ∧
   AnnouncementView.audios t'
   = AnnouncementView.audios t ++ [Audio.playing url false]).
Proof.
  intros Hs Hps Ht Hpt. cbn zeta. split.
  - unfold ResourceView.handlePlayTTS. rewrite bool_decide_false by done.
    assert (∀ s0, ResourceView.audioCache s0 = ResourceView.audioCache s →
              let s' := ResourceView.play_or_generate resource s0 in
              ResourceView.pending s' = ResourceView.pending s0 ∧
              ResourceView.generatingAudioId s' = ResourceView.generatingAudioId s0 ∧
              ResourceView.audioCache s' = ResourceView.audioCache s0 ∧
              ResourceView.playingResourceId s' = Some (ResourceView.id resource) ∧
              ResourceView.currentAudioRef s' = Some (length (ResourceView.audios s0)) ∧
              ResourceView.audios s' !! length (ResourceView.audios s0)
              = Some (Audio.playing url false) ∧
              length (ResourceView.audios s') = S (length (ResourceView.audios s0)))
      as Hplay.
    { intros s0 Hc. cbn zeta. unfold ResourceView.play_or_generate.
      rewrite Hc, Hs. unfold ResourceView.start.
      cbn [ResourceView.pending ResourceView.generatingAudioId
           ResourceView.audioCache ResourceView.playingResourceId
           ResourceView.currentAudioRef ResourceView.audios].
      repeat split; try done.
      - rewrite lookup_app_r by lia. by rewrite Nat.sub_diag.
      - rewrite length_app. simpl. lia. }
    destruct (ResourceView.currentAudioRef s) as [a|] eqn:Hcur.
    + specialize (Hplay (ResourceView.handleStopTTS s)).
      unfold ResourceView.handleStopTTS in *. rewrite Hcur in *.
      cbn [ResourceView.pending ResourceView.generatingAudioId
           ResourceView.audioCache ResourceView.playingResourceId
           ResourceView.currentAudioRef ResourceView.audios] in Hplay.
      rewrite length_alter in Hplay. by apply Hplay.
    + by apply Hplay.
  - unfold AnnouncementView.handlePlayTTS.
    rewrite bool_decide_false by done. by rewrite Ht.
Qed.

Lemma cache_hit_plays_witness :
  let s' := ResourceView.handlePlayTTS rA resource_cached_A in
  let t' := AnnouncementView.handlePlayTTS aA announcement_cached_A in
  (ResourceView.pending s' = ResourceView.pending resource_cached_A ∧
   ResourceView.generatingAudioId s'
   = ResourceView.generatingAudioId resource_cached_A ∧
   ResourceView.audioCache s' = ResourceView.audioCache resource_cached_A ∧
   ResourceView.playingResourceId s' = Some "A" ∧
   ResourceView.currentAudioRef s'
   = Some (length (ResourceView.audios resource_cached_A)) ∧
   ResourceView.audios s' !! length (ResourceView.audios resource_cached_A)
   = Some (Audio.playing "blob:1" false) ∧
   length (ResourceView.audios s')
   = S (length (ResourceView.audios resource_cached_A))) ∧
  (AnnouncementView.pending t' = AnnouncementView.pending announcement_cached_A ∧
   AnnouncementView.audioMap t' = AnnouncementView.audioMap announcement_cached_A ∧
   AnnouncementView.playingId t' = Some "A" ∧
   AnnouncementView.audios t'
   = AnnouncementView.audios announcement_cached_A
     ++ [Audio.playing "blob:1" false]).
Proof.
  apply (cache_hit_plays "blob:1" rA resource_cached_A aA announcement_cached_A).
  - reflexivity.
  - discriminate.
  - reflexivity.
  - discriminate.
Defined.

Section Component.
Variable Chunk : Type.
Variable trim : string → string.
Variable toLowerCase : string → string.

Implicit Types (s : ResourceNav.state Chunk).

(** X15: [handleBack] never leaves an element as the current one, and when
    every active stream was the current one no stream is active after it;
    it closes the guide, keeps the cache, and goes from the search to the
    units with the query and the list emptied, from a list to the types
    and from the types to the units, so that two steps back end at the
    units from anywhere.  The "Units" breadcrumb goes to the units without
    touching the audio. *)
Theorem handleBack_stops_and_returns s :
  let s' := ResourceNav.handleBack s in
  ResourceView.currentAudioRef (ResourceNav.tts s') = None ∧
  (ResourceView.only_current (ResourceNav.tts s) →
   ∀ a, is_playing (ResourceView.audios (ResourceNav.tts s')) a = false) ∧
  ResourceView.audioCache (ResourceNav.tts s')
  = ResourceView.audioCache (ResourceNav.tts s) ∧
  ResourceNav.aiOutput s' = None ∧
  (ResourceNav.step s = ResourceNav.step_search →
   ResourceNav.step s' = ResourceNav.step_unit ∧
   ResourceNav.resources s' = [] ∧
   ResourceNav.searchQuery s' = EmptyString) ∧
  (ResourceNav.step s = ResourceNav.step_list →
   ResourceNav.step s' = ResourceNav.step_type ∧
   ResourceNav.resources s' = ResourceNav.resources s) ∧
  (ResourceNav.step s = ResourceNav.step_type →
   ResourceNav.step s' = ResourceNav.step_unit) ∧
  ResourceNav.step (ResourceNav.handleBack s') = ResourceNav.step_unit ∧
  ResourceNav.tts (ResourceNav.breadcrumb s) = ResourceNav.tts s ∧
  ResourceNav.step (ResourceNav.breadcrumb s) = ResourceNav.step_unit.
Proof.
  cbn zeta.
  assert (ResourceNav.tts (ResourceNav.handleBack s)
          = ResourceNav.back_audio (ResourceNav.tts s)) as Htts.
  { unfold ResourceNav.handleBack. by destruct (ResourceNav.step s). }
  rewrite Htts.
  split; [|split; [|split]].
  - unfold ResourceNav.back_audio.
    by destruct (ResourceView.currentAudioRef (ResourceNav.tts s)) eqn:H.
  - intros Hcur a.
    pose proof (only_current_back_audio _ Hcur) as Hb.
    apply (only_current_silent _ Hb).
    unfold ResourceNav.back_audio.
    by destruct (ResourceView.currentAudioRef (ResourceNav.tts s)) eqn:H.
  - unfold ResourceNav.back_audio.
    by destruct (ResourceView.currentAudioRef (ResourceNav.tts s)).
  - unfold ResourceNav.handleBack.
    destruct (ResourceNav.step s); cbn; repeat split; done.
Qed.

(** X16: deleting a resource.  The deletion is requested only for an admin
    who confirms; otherwise the state is unchanged.  When the database
    deletes the document, the list loses the resources with that
    identifier and keeps the others in their order; when the deletion
    fails the list is as it was. *)
Theorem handleDelete_removes (id : string) s :
  (∀ confirm o, ResourceNav.handleDelete false confirm id o s = s) ∧
  (∀ isAdmin o, ResourceNav.handleDelete isAdmin false id o s = s) ∧
  (∀ isAdmin confirm,
     ResourceNav.handleDelete_requested isAdmin confirm = true ↔
     isAdmin = true ∧ confirm = true) ∧
  (∀ e, ResourceNav.handleDelete true true id (Throw e) s = s) ∧
  (let s' := ResourceNav.handleDelete true true id (Ok ()) s in
   (∀ r, r ∈ ResourceNav.resources s' ↔
         r ∈ ResourceNav.resources s ∧ ResourceNav.r_id r ≠ id) ∧
   ResourceNav.resources s' `sublist_of` ResourceNav.resources s ∧
   ResourceNav.tts s' = ResourceNav.tts s ∧
   ResourceNav.step s' = ResourceNav.step s).
Proof.
  split; [done|]. split; [by intros []|]. split; [by intros [] []; cbn; intuition|].
  split; [done|]. cbn zeta. unfold ResourceNav.handleDelete. cbn.
  split; [|split; [apply sublist_filter|done]].
  intros r. rewrite list_elem_of_filter. intuition.
Qed.

(** X17: a study guide always arrives.  Whatever the request of
    [generateStudyGuide] does, once the result is there the guide is no
    longer marked as being generated and the output of the resource is
    shown with a text that is not empty. *)
Theorem guide_always_settles
    (generateContent : Gemini.Request → result (Gemini.Response Chunk))
    (resource : ResourceNav.Resource) s :
  let s' :=
    ResourceNav.handleGenerateGuide_settle resource
      (Gemini.generateStudyGuide Chunk generateContent
         (ResourceNav.guide_content resource))
      (ResourceNav.handleGenerateGuide resource s) in
  ResourceNav.generatingId s' = None ∧
  ∃ out, ResourceNav.aiOutput s' = Some out ∧
         ResourceNav.ai_id out = ResourceNav.r_id resource ∧
         ResourceNav.ai_text out ≠ EmptyString.
Proof.
  cbn zeta.
  destruct (GeminiExtras.generateStudyGuide_total' Chunk generateContent
              (ResourceNav.guide_content resource)) as (g & -> & Hg).
  cbn. split; [done|]. eexists. split; [done|]. by split.
Qed.

End Component.

End NavExtras.

(** ** Search results *)

Module SearchExtras.
Import Tts.

Lemma append_cons (c : ascii) (a b : string) :
  String c a +:+ b = String c (a +:+ b).
Proof. reflexivity. Qed.

Lemma prefix_spec (sub s : string) :
  String.prefix sub s = true ↔ ∃ post, s = sub +:+ post.
Proof.
  revert s. induction sub as [|a sub IH]; intros s.
  - split; [intros _; by exists s|by destruct s].
  - destruct s as [|b s]; cbn [String.prefix].
    + split; [done|]. intros [post H]. by rewrite append_cons in H.
    + destruct (ascii_dec a b) as [->|Hne].
      * rewrite IH. split; intros [post H]; exists post.
        -- by rewrite append_cons, H.
        -- rewrite append_cons in H. by injection H.
      * split; [done|]. intros [post H].
        rewrite append_cons in H. by injection H.
Qed.

(** [includes] is the test for a substring. *)
Lemma includes_spec (s sub : string) :
  ResourceNav.includes s sub = true ↔ ∃ pre post, s = pre +:+ sub +:+ post.
Proof.
  induction s as [|c s IH]; cbn [ResourceNav.includes].
  - rewrite orb_false_r, prefix_spec. split.
    + intros [post H]. by exists EmptyString, post.
    + intros (pre & post & H). destruct pre as [|x pre]; [by exists post|].
      by rewrite append_cons in H.
  - rewrite orb_true_iff, prefix_spec, IH. split.
    + intros [[post H]|(pre & post & H)].
      * by exists EmptyString, post.
      * exists (String c pre), post. by rewrite append_cons, H.
    + intros (pre & post & H). destruct pre as [|x pre].
      * left. by exists post.
      * right. exists pre, post. rewrite append_cons in H. by injection H.
Qed.

Section Component.
Variable Chunk : Type.
Variable trim : string → string.
Variable toLowerCase : string → string.
Variable sortByTitle : list ResourceNav.Resource → list ResourceNav.Resource.

Implicit Types (s : ResourceNav.state Chunk).

(** X18: searching.  A query that is blank once trimmed is ignored.  When
    the documents arrive, the list is those of them whose title or data,
    in lower case, contains the query in lower case, in the order they
    came, and the view is no longer loading.  When the request fails, for
    a search as for a list, the view is no longer loading and the list is
    the one that was there before. *)
Theorem search_results (q : string) (items : list ResourceNav.Resource)
    (e : Error) s :
  (trim (ResourceNav.searchQuery s) = EmptyString →
   ResourceNav.performSearch trim s = s) ∧
  (let s' := ResourceNav.performSearch_settle toLowerCase q (Ok items) s in
   (∀ r, r ∈ ResourceNav.resources s' ↔
         r ∈ items ∧
         ((∃ pre post, toLowerCase (ResourceNav.r_title r)
                       = pre +:+ toLowerCase q +:+ post) ∨
          (∃ pre post, toLowerCase (ResourceNav.r_data r)
                       = pre +:+ toLowerCase q +:+ post))) ∧
   ResourceNav.resources s' `sublist_of` items ∧
   ResourceNav.loading s' = false) ∧
  (let s' := ResourceNav.performSearch_settle toLowerCase q (Throw e) s in
   ResourceNav.resources s' = ResourceNav.resources s ∧
   ResourceNav.loading s' = false ∧
   ResourceNav.step s' = ResourceNav.step s) ∧
  (let s' := ResourceNav.fetchResources_settle sortByTitle (Throw e) s in
   ResourceNav.resources s' = ResourceNav.resources s ∧
   ResourceNav.loading s' = false ∧
   ResourceNav.step s' = ResourceNav.step s).
Proof.
  split; [|split; [|done]].
  - intros H. unfold ResourceNav.performSearch.
    by rewrite bool_decide_true by done.
  - cbn zeta. cbn [ResourceNav.performSearch_settle ResourceNav.resources
                   ResourceNav.loading].
    split; [|split; [apply sublist_filter|done]].
    intros r. rewrite list_elem_of_filter. unfold ResourceNav.matches.
    rewrite orb_true_iff, !includes_spec. intuition.
Qed.

End Component.

End SearchExtras.


(** ** renderMarkdown *)

Module MarkdownExtras.
Import Markdown.

Lemma scan_no_match f fuel prev s :
  no_match f prev s → scan f fuel prev s = s.
Proof.
  revert prev s; induction fuel as [|fuel IH]; intros prev s H; [done|].
  destruct s as [|c s]; cbn [scan]; destruct H as [-> H]; [done|].
  by rewrite IH.
Qed.

Lemma replace_no_match f s : no_match f None s → replace f s = s.
Proof. apply scan_no_match. Qed.

Lemma starts_with_head m M s : m ∉ s → starts_with (m :: M) s = false.
Proof.
  destruct s as [|c s]; [done|]; intros H; cbn [starts_with].
  destruct (N.eqb_spec m c) as [->|]; [|done].
  by destruct H; left.
Qed.

Lemma no_match_line_absent m M o c prev s :
  m ∉ s → no_match (match_line (m :: M) o c) prev s.
Proof.
  revert prev; induction s as [|a s IH]; intros prev H.
  - split; [|done]. unfold match_line. by rewrite andb_false_r.
  - split.
    + unfold match_line. by rewrite starts_with_head, andb_false_r.
    + apply IH. by intros H'; destruct H; right.
Qed.

Lemma no_match_bold_absent o c prev s :
  42%N ∉ s → no_match (match_bold o c) prev s.
Proof.
  revert prev; induction s as [|a s IH]; intros prev H.
  - done.
  - split.
    + unfold match_bold. by rewrite starts_with_head.
    + apply IH. by intros H'; destruct H; right.
Qed.

Lemma no_match_newline_absent prev s :
  10%N ∉ s → no_match match_newline prev s.
Proof.
  revert prev; induction s as [|a s IH]; intros prev H.
  - done.
  - split.
    + cbn [match_newline]. destruct (N.eqb_spec a 10) as [->|]; [|done].
      by destruct H; left.
    + apply IH. by intros H'; destruct H; right.
Qed.

(** Within one line only its start is a line start. *)
Lemma no_match_line_inside M o c a s :
  is_line_terminator a = false →
  Forall (λ b, is_line_terminator b = false) s →
  no_match (match_line M o c) (Some a) s.
Proof.
  intros Ha Hs; revert a Ha; induction Hs as [|b s Hb Hs IH]; intros a Ha.
  - split; [|done]. unfold match_line, at_line_start. by rewrite Ha.
  - split; [unfold match_line, at_line_start; by rewrite Ha|].
    by apply IH.
Qed.

Lemma no_match_line_one_line M o c s :
  Forall (λ b, is_line_terminator b = false) s →
  starts_with M s = false →
  no_match (match_line M o c) None s.
Proof.
  intros Hs HM. destruct Hs as [|b s Hb Hs].
  - split; [|done]. unfold match_line. by rewrite HM, andb_false_r.
  - split; [unfold match_line; by rewrite HM, andb_false_r|].
    by apply no_match_line_inside.
Qed.

Lemma line_rest_one_line s :
  Forall (λ b, is_line_terminator b = false) s → line_rest s = s.
Proof.
  induction 1 as [|b s Hb Hs IH]; [done|].
  cbn [line_rest]. by rewrite Hb, IH.
Qed.

Lemma not_terminator_not_newline s :
  Forall (λ b, is_line_terminator b = false) s → 10%N ∉ s.
Proof.
  intros Hs H. rewrite Forall_forall in Hs. by apply Hs in H.
Qed.

Lemma scan_newline fuel prev s :
  (length s < fuel)%nat → scan match_newline fuel prev s = s ≫= br_or.
Proof.
  revert prev s; induction fuel as [|fuel IH]; intros prev s H; [lia|].
  destruct s as [|c s]; [done|].
  cbn [scan match_newline length] in *.
  change ((c :: s) ≫= br_or) with (br_or c ++ (s ≫= br_or)).
  unfold br_or at 1. destruct (c =? 10)%N.
  - cbn [take drop]. rewrite drop_0. by rewrite IH by lia.
  - cbn [app]. by rewrite IH by lia.
Qed.

Lemma replace_newline s : replace match_newline s = s ≫= br_or.
Proof. apply scan_newline; lia. Qed.

Lemma replace_newline_no_newline s : 10%N ∉ replace match_newline s.
Proof.
  rewrite replace_newline. intros H.
  apply list_elem_of_bind in H as (c & H & _). unfold br_or in H.
  destruct (N.eqb_spec c 10) as [Hc|Hc].
  - revert H. change (10%N ∉ units "<br />").
    apply (bool_decide_unpack _); vm_compute; exact I.
  - apply list_elem_of_singleton in H. congruence.
Qed.

Lemma render_plain h3 h2 strong li text :
  35%N ∉ text → 42%N ∉ text → 10%N ∉ text →
  render h3 h2 strong li text = text.
Proof.
  intros H35 H42 H10. unfold render.
  change (units "### ") with (35 :: units "## ")%N.
  change (units "## ") with (35 :: units "# ")%N.
  change (units "* ") with (42 :: units " ")%N.
  rewrite (replace_no_match (match_line (35 :: 35 :: _)%N _ _))
    by by apply no_match_line_absent.
  rewrite (replace_no_match (match_line (35 :: _)%N _ _))
    by by apply no_match_line_absent.
  rewrite (replace_no_match (match_bold _ _))
    by by apply no_match_bold_absent.
  rewrite (replace_no_match (match_line _ _ _))
    by by apply no_match_line_absent.
  by rewrite (replace_no_match match_newline)
    by by apply no_match_newline_absent.
Qed.

Lemma scan_nil f fuel prev :
  f prev [] = None → scan f fuel prev [] = [].
Proof. destruct fuel; [done|]. cbn [scan]. by intros ->. Qed.

Lemma scan_match f fuel prev s len repl :
  f prev s = Some (len, repl) →
  scan f (S fuel) prev s
  = repl ++ scan f fuel (last (take len s)) (drop len s).
Proof. intros H. cbn [scan]. by rewrite H. Qed.

Lemma match_line_heading o c t :
  Forall (λ b, is_line_terminator b = false) t →
  match_line (units "### ") o c None (units "### " ++ t)
  = Some ((4 + length t)%nat, o ++ t ++ c).
Proof.
  intros Ht. change (units "### ") with [35; 35; 35; 32]%N.
  unfold match_line.
  change (at_line_start None && _) with (true && starts_with [] t).
  cbn [andb starts_with length app drop].
  by rewrite drop_0, (line_rest_one_line t Ht).
Qed.

Lemma replace_heading o c t :
  Forall (λ b, is_line_terminator b = false) t →
  replace (match_line (units "### ") o c) (units "### " ++ t)
  = o ++ t ++ c.
Proof.
  intros Ht. unfold replace.
  rewrite (scan_match _ _ _ _ _ _ (match_line_heading o c t Ht)).
  rewrite (drop_ge _ (4 + length t)).
  2:{ rewrite length_app. change (length (units "### ")) with 4%nat. lia. }
  rewrite scan_nil; [by rewrite app_nil_r|].
  unfold match_line. by rewrite andb_false_r.
Qed.

Lemma render_heading h3 h3' h2 strong li t :
  h3 = (60 :: h3')%N →
  Forall (λ b, is_line_terminator b = false) h3 → 42%N ∉ h3 →
  Forall (λ b, is_line_terminator b = false) t → 42%N ∉ t →
  render h3 h2 strong li (units "### " ++ t) = h3 ++ t ++ units "</h3>".
Proof.
  intros Hh3 Hh Hh42 Ht Ht42. unfold render.
  rewrite replace_heading by done.
  assert (Forall (λ b, is_line_terminator b = false)
            (h3 ++ t ++ units "</h3>")) as Hline.
  { rewrite !Forall_app. split_and!; [done..|].
    vm_compute. repeat constructor. }
  assert (42%N ∉ h3 ++ t ++ units "</h3>") as H42.
  { rewrite !elem_of_app. intros [?|[?|H]]; [done..|].
    revert H. change (42%N ∉ units "</h3>").
    apply (bool_decide_unpack _); vm_compute; exact I. }
  rewrite (replace_no_match (match_line (units "## ") _ _)).
  2:{ apply no_match_line_one_line; [done|]. by rewrite Hh3. }
  rewrite (replace_no_match (match_bold _ _))
    by by apply no_match_bold_absent.
  rewrite (replace_no_match (match_line (units "* ") _ _)).
  2:{ apply no_match_line_one_line; [done|]. by rewrite Hh3. }
  by rewrite (replace_no_match match_newline)
    by by apply no_match_newline_absent, not_terminator_not_newline.
Qed.

Lemma starts_with_first m M b s :
  m ≠ b → starts_with (m :: M) (b :: s) = false.
Proof.
  intros H. cbn [starts_with]. by apply N.eqb_neq in H as ->.
Qed.

Lemma lazy_until_stars_closing t :
  Forall (λ b, is_line_terminator b = false) t → 42%N ∉ t →
  lazy_until_stars (t ++ units "**") = Some t.
Proof.
  change (units "**") with [42; 42]%N.
  induction 1 as [|b t Hb Ht IH]; intros H42; [done|].
  apply not_elem_of_cons in H42 as [Hne H42].
  cbn [lazy_until_stars app].
  rewrite starts_with_first by done.
  by rewrite Hb, IH.
Qed.

Lemma match_bold_closed o c prev t :
  Forall (λ b, is_line_terminator b = false) t → 42%N ∉ t →
  match_bold o c prev (units "**" ++ t ++ units "**")
  = Some ((2 + length t + 2)%nat, o ++ t ++ c).
Proof.
  intros Ht H42. unfold match_bold.
  change (units "**" ++ t ++ units "**")
    with (42 :: 42 :: t ++ units "**")%N.
  cbn [starts_with N.eqb Pos.eqb andb drop].
  by rewrite drop_0, lazy_until_stars_closing.
Qed.

Lemma replace_bold o c t :
  Forall (λ b, is_line_terminator b = false) t → 42%N ∉ t →
  replace (match_bold o c) (units "**" ++ t ++ units "**") = o ++ t ++ c.
Proof.
  intros Ht H42. unfold replace.
  rewrite (scan_match _ _ _ _ _ _ (match_bold_closed o c None t Ht H42)).
  rewrite (drop_ge _ (2 + length t + 2)).
  2:{ rewrite !length_app. change (length (units "**")) with 2%nat. lia. }
  by rewrite scan_nil, app_nil_r.
Qed.

Lemma render_bold h3 h2 strong strong' li t :
  strong = (60 :: strong')%N →
  Forall (λ b, is_line_terminator b = false) strong →
  Forall (λ b, is_line_terminator b = false) t → 42%N ∉ t →
  render h3 h2 strong li (units "**" ++ t ++ units "**")
  = strong ++ t ++ units "</strong>".
Proof.
  intros Hs Hstrong Ht H42. unfold render.
  assert (Forall (λ b, is_line_terminator b = false)
            (units "**" ++ t ++ units "**")) as Hin.
  { rewrite !Forall_app. split_and!; [|done|]; vm_compute;
      repeat constructor. }
  rewrite (replace_no_match (match_line (units "### ") _ _))
    by by apply no_match_line_one_line.
  rewrite (replace_no_match (match_line (units "## ") _ _))
    by by apply no_match_line_one_line.
  rewrite replace_bold by done.
  assert (Forall (λ b, is_line_terminator b = false)
            (strong ++ t ++ units "</strong>")) as Hout.
  { rewrite !Forall_app. split_and!; [done..|].
    vm_compute. repeat constructor. }
  rewrite (replace_no_match (match_line (units "* ") _ _)).
  2:{ apply no_match_line_one_line; [done|]. by rewrite Hs. }
  by rewrite (replace_no_match match_newline)
    by by apply no_match_newline_absent, not_terminator_not_newline.
Qed.

(** X20: a text without '#', '*' and line feed is rendered as it is in
    both views: its other characters, '<', '>' and '&' among them, reach
    the HTML unescaped. *)
Theorem renderMarkdown_plain (text : list N) :
  35%N ∉ text → 42%N ∉ text → 10%N ∉ text →
  renderMarkdown_resource text = text ∧ renderMarkdown_chat text = text.
Proof. intros; split; by apply render_plain. Qed.

Lemma renderMarkdown_plain_witness :
  renderMarkdown_resource markup_sample = markup_sample ∧
  renderMarkdown_chat markup_sample = markup_sample.
Proof.
  apply (renderMarkdown_plain markup_sample);
    apply (bool_decide_unpack _); vm_compute; exact I.
Defined.

(** X21: the HTML that renderMarkdown produces has no line feed, in both
    views and for every text. *)
Theorem renderMarkdown_no_newline (text : list N) :
  (10%N ∉ renderMarkdown_resource text) ∧
  (10%N ∉ renderMarkdown_chat text).
Proof. split; apply replace_newline_no_newline. Qed.

(** X22: a text that is one heading line, "### " followed by a title
    without line terminator and without '*', is rendered in both views as
    the h3 element of the view around the title, which is not escaped. *)
Theorem renderMarkdown_heading (t : list N) :
  Forall (λ b, is_line_terminator b = false) t → 42%N ∉ t →
  renderMarkdown_resource (units "### " ++ t)
  = tag "h3" "text-lg font-bold text-ai mt-4 mb-2" ++ t ++ units "</h3>" ∧
  renderMarkdown_chat (units "### " ++ t)
  = tag "h3" "font-bold text-lg mt-4 mb-2 text-slate-800" ++ t
    ++ units "</h3>".
Proof.
  intros Ht H42; split.
  - eapply render_heading; [by vm_compute| | |done..].
    + vm_compute. repeat constructor.
    + apply (bool_decide_unpack _); vm_compute; exact I.
  - eapply render_heading; [by vm_compute| | |done..].
    + vm_compute. repeat constructor.
    + apply (bool_decide_unpack _); vm_compute; exact I.
Qed.

Lemma renderMarkdown_heading_witness :
  renderMarkdown_resource (units "### " ++ markup_sample)
  = tag "h3" "text-lg font-bold text-ai mt-4 mb-2" ++ markup_sample
    ++ units "</h3>" ∧
  renderMarkdown_chat (units "### " ++ markup_sample)
  = tag "h3" "font-bold text-lg mt-4 mb-2 text-slate-800" ++ markup_sample
    ++ units "</h3>".
Proof.
  apply (renderMarkdown_heading markup_sample).
  - vm_compute. repeat constructor.
  - apply (bool_decide_unpack _); vm_compute; exact I.
Defined.

(** X23: a text that is one bold span, a content without line terminator
    and without '*' between two pairs of stars, is rendered in both views
    as the strong element of the view around the content. *)
Theorem renderMarkdown_bold (t : list N) :
  Forall (λ b, is_line_terminator b = false) t → 42%N ∉ t →
  renderMarkdown_resource (units "**" ++ t ++ units "**")
  = units "<strong>" ++ t ++ units "</strong>" ∧
  renderMarkdown_chat (units "**" ++ t ++ units "**")
  = tag "strong" "text-slate-900" ++ t ++ units "</strong>".
Proof.
  intros Ht H42; split.
  - eapply render_bold; [by vm_compute| |done..].
    vm_compute. repeat constructor.
  - eapply render_bold; [by vm_compute| |done..].
    vm_compute. repeat constructor.
Qed.

Lemma renderMarkdown_bold_witness :
  renderMarkdown_resource (units "**" ++ markup_sample ++ units "**")
  = units "<strong>" ++ markup_sample ++ units "</strong>" ∧
  renderMarkdown_chat (units "**" ++ markup_sample ++ units "**")
  = tag "strong" "text-slate-900" ++ markup_sample ++ units "</strong>".
Proof.
  apply (renderMarkdown_bold markup_sample).
  - vm_compute. repeat constructor.
  - apply (bool_decide_unpack _); vm_compute; exact I.
Defined.

End MarkdownExtras.

(** ** The upload view: properties *)

Module UploadExtras.
Import UploadQueue.

Lemma all_extension_dot b ext :
  all_extension (b +:+ String "." ext) = false.
Proof.
  induction b as [|c b IH]; [done|].
  change (String c b +:+ String "." ext)
    with (String c (b +:+ String "." ext)).
  cbn [all_extension]. by rewrite IH, andb_false_r.
Qed.

(** X24: the title of a dropped text file.  Whatever comes before it, a
    last dot followed by one or more characters that are neither dots nor
    slashes is removed with them, so that a name that is only an
    extension gives the empty title; a name without a dot is kept. *)
Theorem strip_extension_spec (base ext name : string) :
  truthy ext = true → all_extension ext = true →
  ResourceNav.includes name "." = false →
  strip_extension (base +:+ String "." ext) = base ∧
  strip_extension (String "." ext) = EmptyString ∧
  strip_extension name = name.
Proof.
  intros Hne Hext Hname. split_and!.
  - induction base as [|c b IH].
    + change (EmptyString +:+ String "." ext) with (String "." ext).
      destruct ext; [done|].
      cbn [strip_extension extension_at truthy andb Ascii.eqb
           Bool.eqb] in *. by rewrite Hext.
    + change (String c b +:+ String "." ext)
        with (String c (b +:+ String "." ext)).
      cbn [strip_extension extension_at].
      by rewrite all_extension_dot, andb_false_r, IH.
  - destruct ext; [done|].
    cbn [strip_extension extension_at truthy andb Ascii.eqb Bool.eqb] in *.
    by rewrite Hext.
  - clear Hne Hext. induction name as [|c s IH]; [done|].
    cbn [strip_extension extension_at ResourceNav.includes String.prefix]
      in *.
    destruct (Ascii.eqb_spec c ".") as [->|_].
    + destruct (ascii_dec "." ".") as [_|?]; [|done].
      by destruct s.
    + cbn [andb]. apply orb_false_iff in Hname as [_ Hname].
      by rewrite IH.
Qed.

Lemma strip_extension_spec_witness :
  strip_extension "notes.v2/week 1.final.md" = "notes.v2/week 1.final" ∧
  strip_extension ".md" = EmptyString ∧
  strip_extension "README" = "README".
Proof.
  apply (strip_extension_spec "notes.v2/week 1.final" "md" "README");
    reflexivity.
Defined.

Lemma mark_fresh id f l : id ∉ q_id <$> l → mark id f l = l.
Proof.
  induction l as [|q l IH]; [done|]; intros H.
  apply not_elem_of_cons in H as [Hne H]. unfold mark in *.
  cbn [fmap list_fmap]. rewrite decide_False by done. f_equal. by apply IH.
Qed.

Lemma mark_unique f pre q qs :
  NoDup (q_id <$> (pre ++ q :: qs)) →
  mark (q_id q) f (pre ++ q :: qs) = pre ++ f q :: qs.
Proof.
  rewrite fmap_app, fmap_cons. intros H.
  apply NoDup_app in H as (_ & Hpre & H).
  apply NoDup_cons in H as [Hqs _].
  unfold mark. rewrite fmap_app, fmap_cons, decide_True by done.
  fold (mark (q_id q) f pre). fold (mark (q_id q) f qs).
  rewrite !mark_fresh; [done..|].
  intros Hin. apply (Hpre _ Hin). by left.
Qed.

Lemma mark_mark id f g l :
  (∀ q, q_id (f q) = q_id q) →
  mark id g (mark id f l) = mark id (g ∘ f) l.
Proof.
  intros Hf. unfold mark. rewrite <- list_fmap_compose.
  apply list_fmap_ext. intros _ q _. cbn [compose].
  destruct (decide (q_id q = id)) as [Hq|Hq].
  - by rewrite decide_True by by rewrite Hf.
  - by rewrite decide_False.
Qed.

Lemma q_id_finish o q : q_id (finish o q) = q_id q.
Proof. by destruct o. Qed.

Section Upload.
Variable email : option string.

Local Abbreviation run := (run email).
Local Abbreviation step := (step email).

(** The loop of a batch that nothing interrupts. *)
Lemma batch_loop qs : ∀ pre os t,
  queue t = pre ++ qs →
  NoDup (q_id <$> (pre ++ qs)) →
  length os = length (filter retryable qs) →
  let t' := run (Settled <$> os) (next (filter retryable qs) t) in
  queue t' = pre ++ settle os qs ∧
  documents t' = documents t ++ sent email os (filter retryable qs) ∧
  isGlobalUploading t' = false ∧ awaited t' = None.
Proof.
  induction qs as [|q qs IH]; intros pre os t Hq Hnd Hlen.
  - destruct os; [|done]. cbn. by rewrite !app_nil_r in *.
  - cbn [settle]. destruct (decide (retryable q)) as [Hr|Hr].
    + rewrite filter_cons_True in * by done.
      destruct os as [|o os]; [done|]. cbn [length] in Hlen.
      cbn [fmap list_fmap sent].
      change (run (Settled o :: (Settled <$> os)) ?s)
        with (run (Settled <$> os) (handleUploadAll_resume email o s)).
      unfold handleUploadAll_resume. cbn [next awaited await].
      set (t2 := match o with Ok _ => _ | Throw _ => _ end).
      assert (queue t2 = (pre ++ [finish o q]) ++ qs) as Hq2.
      { rewrite <- app_assoc. cbn [app].
        rewrite <- (mark_unique (finish o) pre q qs Hnd).
        unfold t2. destruct o; cbn [queue setQueue accept await];
          rewrite Hq, mark_mark by done; unfold mark;
          apply list_fmap_ext; intros _ x _; cbn [compose];
          by destruct (decide _). }
      assert (NoDup (q_id <$> ((pre ++ [finish o q]) ++ qs))) as Hnd2.
      { rewrite <- app_assoc. cbn [app].
        revert Hnd. by rewrite !fmap_app, !fmap_cons, q_id_finish. }
      destruct (IH (pre ++ [finish o q]) os t2 Hq2 Hnd2 ltac:(lia))
        as (-> & -> & -> & ->).
      rewrite <- !app_assoc. cbn [app]. split_and!; [done| |done..].
      unfold t2. destruct o; cbn [documents setQueue accept await];
        by rewrite <- ?app_assoc.
    + rewrite filter_cons_False in * by done.
      assert (queue t = (pre ++ [q]) ++ qs) as Hq2
        by by rewrite <- app_assoc.
      assert (NoDup (q_id <$> ((pre ++ [q]) ++ qs))) as Hnd2
        by by rewrite <- app_assoc.
      destruct (IH (pre ++ [q]) os t Hq2 Hnd2 Hlen) as (-> & -> & -> & ->).
      by rewrite <- !app_assoc.
Qed.

Lemma batch_run os s :
  awaited s = None → isGlobalUploading s = false →
  NoDup (q_id <$> queue s) →
  length os = length (filter retryable (queue s)) →
  let s' := run (UploadAll :: (Settled <$> os)) s in
  queue s' = settle os (queue s) ∧
  documents s' = documents s ++ sent email os (filter retryable (queue s)) ∧
  isGlobalUploading s' = false ∧ awaited s' = None.
Proof.
  intros Ha Hg Hnd Hlen.
  change (run (UploadAll :: (Settled <$> os)) s)
    with (run (Settled <$> os) (step s UploadAll)).
  cbn [UploadQueue.step]. unfold upload_disabled. rewrite Hg, orb_false_r.
  destruct (queue s) as [|q qs] eqn:Hq.
  - destruct os; [|done]. cbn. by rewrite Hq, app_nil_r.
  - rewrite bool_decide_eq_false_2 by done. unfold handleUploadAll.
    rewrite Hq. rewrite <- Hq in *.
    by apply (batch_loop (queue s) [] os (setIsGlobalUploading true s)).
Qed.

(** X25: a batch that nothing interrupts, on a queue whose identifiers
    differ.  Each item that was pending or had failed is sent once, in
    the order of the queue, the failed ones too, which the label of the
    button does not count; it becomes a success, or an error with the
    message of what [add] threw; the other items and the order are
    unchanged; the documents accepted are those of the calls that
    returned; the upload is over when the last call has settled. *)
Theorem handleUploadAll_batch (os : list (result ())) (s : state) :
  awaited s = None → isGlobalUploading s = false →
  NoDup (q_id <$> queue s) →
  length os = length (filter retryable (queue s)) →
  let s' := run (UploadAll :: (Settled <$> os)) s in
  queue s' = settle os (queue s) ∧
  documents s' = documents s ++ sent email os (filter retryable (queue s)) ∧
  isGlobalUploading s' = false ∧ awaited s' = None.
Proof. apply batch_run. Qed.

Lemma settle_all_ok qs n :
  (length (filter retryable qs) ≤ n)%nat →
  settle (replicate n (Ok ())) qs
  = (λ q, if decide (retryable q) then with_status success q else q)
      <$> qs.
Proof.
  revert n; induction qs as [|q qs IH]; intros n Hn; [done|].
  cbn [settle fmap list_fmap]. destruct (decide (retryable q)).
  - rewrite filter_cons_True in Hn by done. cbn [length] in Hn.
    destruct n as [|n]; [lia|]. cbn [replicate finish].
    f_equal. apply IH. lia.
  - rewrite filter_cons_False in Hn by done. f_equal. by apply IH.
Qed.

Lemma sent_all_ok items :
  sent email (replicate (length items) (Ok ())) items
  = document_of email <$> items.
Proof.
  induction items as [|q items IH]; [done|].
  cbn [length replicate sent fmap list_fmap]. by rewrite IH.
Qed.

(** X26: a batch that nothing interrupts and in which every call
    returns, on a queue whose identifiers differ.  Every item that was
    pending or had failed is a success and its document is accepted; an
    item that had failed keeps the message of its failure, which the
    view goes on showing under it; and Clear Completed then leaves only
    the items that were shown as uploading before the batch. *)
Theorem upload_all_succeeds (s : state) :
  awaited s = None → isGlobalUploading s = false →
  NoDup (q_id <$> queue s) →
  let n := length (filter retryable (queue s)) in
  let s' := run (UploadAll :: replicate n (Settled (Ok ()))) s in
  queue s'
  = (λ q, if decide (retryable q) then with_status success q else q)
      <$> queue s ∧
  q_error <$> queue s' = q_error <$> queue s ∧
  documents s'
  = documents s ++ (document_of email <$> filter retryable (queue s)) ∧
  queue (clearSuccess s')
  = filter (λ q, q_status q = uploading) (queue s).
Proof.
  intros Ha Hg Hnd n s'.
  destruct (batch_run (replicate n (Ok ())) s Ha Hg Hnd) as (Hq & Hd & _).
  { by rewrite length_replicate. }
  rewrite fmap_replicate in Hq, Hd. fold s' in Hq, Hd.
  rewrite settle_all_ok in Hq by done. unfold n in Hd.
  rewrite sent_all_ok in Hd.
  split_and!; [done| |done|].
  - rewrite Hq, <- list_fmap_compose. apply list_fmap_ext.
    intros _ q _. cbn [compose]. by destruct (decide _).
  - cbn [clearSuccess queue setQueue]. rewrite Hq. clear.
    induction (queue s) as [|q qs IH]; [done|].
    cbn [fmap list_fmap].
    destruct (decide (retryable q)) as [[Hr|Hr]|Hr].
    + rewrite filter_cons_False by (cbn; tauto).
      rewrite filter_cons_False by congruence. apply IH.
    + rewrite filter_cons_False by (cbn; tauto).
      rewrite filter_cons_False by congruence. apply IH.
    + destruct (q_status q) eqn:Hs;
        try (destruct Hr; unfold retryable; tauto).
      * rewrite !filter_cons_True by congruence. f_equal. apply IH.
      * rewrite !filter_cons_False by congruence. apply IH.
Qed.

End Upload.

Lemma Forall_filter_keep {A} (P Q : A → Prop) `{!∀ x, Decision (Q x)} l :
  Forall P l → Forall P (filter Q l).
Proof.
  rewrite !Forall_forall. intros Hl x Hx.
  apply list_elem_of_filter in Hx as [_ Hx]. by apply Hl.
Qed.

Lemma Forall_mark (P : QueuedResource → Prop) id f l :
  (∀ q, q_id q = id → P q → P (f q)) →
  Forall P l → Forall P (mark id f l).
Proof.
  intros Hf Hl. unfold mark. apply Forall_fmap.
  eapply Forall_impl; [exact Hl|]. intros q Hq. cbn [compose].
  destruct (decide (q_id q = id)); [by apply Hf|done].
Qed.

(** *** The upload in progress *)

Lemma next_invariant items t :
  Forall (λ q, q_status q ≠ uploading) (queue t) →
  (items ≠ [] → isGlobalUploading t = true) →
  upload_invariant (next items t).
Proof.
  intros Hq Hg. destruct items as [|item rest]; cbn; [done|].
  split; [by apply Hg|]. unfold mark. apply Forall_fmap.
  eapply Forall_impl; [exact Hq|]. intros q Hs. cbn [compose].
  by destruct (decide (q_id q = q_id item)).
Qed.

Lemma invariant_queue (f : list QueuedResource → list QueuedResource) s :
  (∀ P, Forall P (queue s) →
        (∀ q, q_status q = pending → P q) → Forall P (f (queue s))) →
  upload_invariant s → upload_invariant (setQueue f s).
Proof.
  intros Hf. unfold upload_invariant. cbn [awaited setQueue queue
    isGlobalUploading].
  destruct (awaited s) as [[item rest]|]; intros [Hg Hq]; (split; [done|]);
    apply Hf; [done| |done|]; intros q Hp; by rewrite Hp.
Qed.

Lemma invariant_addToQueue id newItem s :
  upload_invariant s → upload_invariant (addToQueue id newItem s).
Proof.
  apply invariant_queue. intros P HP Hnew.
  apply Forall_app; split; [done|]. by apply Forall_singleton, Hnew.
Qed.

Lemma invariant_filter (Q : QueuedResource → Prop)
    `{!∀ x, Decision (Q x)} s :
  upload_invariant s → upload_invariant (setQueue (filter Q) s).
Proof.
  apply invariant_queue. intros P HP _. by apply Forall_filter_keep.
Qed.

Lemma invariant_for_of_files unit type random files : ∀ k s,
  upload_invariant s →
  upload_invariant (for_of_files unit type random k files s).
Proof.
  induction files as [|file files IH]; intros k s Hs; [done|].
  cbn [for_of_files]. destruct (dropped unit type file); [|by apply IH].
  by apply IH, invariant_addToQueue.
Qed.

(** *** The unit and the type of what is queued and sent *)

Lemma labelled_queue (f : list QueuedResource → list QueuedResource) s :
  (Forall labelled (queue s) → Forall labelled (f (queue s))) →
  all_labelled s → all_labelled (setQueue f s).
Proof. intros Hf (Hq & Hd & Ha). split_and!; [by apply Hf|done..]. Qed.

Lemma labelled_addToQueue id newItem s :
  truthy (n_unit newItem) = true → truthy (n_type newItem) = true →
  all_labelled s → all_labelled (addToQueue id newItem s).
Proof.
  intros Hu Ht. apply labelled_queue. intros Hq.
  apply Forall_app; split; [done|]. by apply Forall_singleton.
Qed.

Lemma labelled_for_of_files unit type random files : ∀ k s,
  truthy unit = true → truthy type = true →
  all_labelled s →
  all_labelled (for_of_files unit type random k files s).
Proof.
  induction files as [|file files IH]; intros k s Hu Ht Hs; [done|].
  cbn [for_of_files]. destruct (dropped unit type file) as [n|] eqn:Hn;
    [|by apply IH].
  apply IH; [done..|]. apply labelled_addToQueue; [| |done].
  - unfold dropped in Hn.
    destruct (is_text file); [destruct (f_text file)|]; by simplify_eq.
  - unfold dropped in Hn.
    destruct (is_text file); [destruct (f_text file)|]; by simplify_eq.
Qed.

Lemma labelled_mark id f l :
  (∀ q, labelled q → labelled (f q)) →
  Forall labelled l → Forall labelled (mark id f l).
Proof. intros Hf. apply Forall_mark. intros q _. apply Hf. Qed.

Lemma labelled_next items t :
  Forall labelled items → all_labelled t → all_labelled (next items t).
Proof.
  intros Hi (Hq & Hd & _). destruct items as [|item rest]; cbn.
  - by split_and!.
  - apply Forall_cons in Hi as [Hitem Hrest].
    split_and!; [|done..]. by apply labelled_mark.
Qed.

Section Upload.
Variable email : option string.

Local Abbreviation run := (run email).
Local Abbreviation step := (step email).

Lemma upload_invariant_step s e : upload_invariant s → upload_invariant (step s e).
Proof.
  intros Hs. destruct e; cbn [UploadQueue.step]; try done.
  - unfold handleManualAdd. destruct (_ || _); [done|].
    by apply (invariant_addToQueue id _ s).
  - unfold handleDrop. cbn [s_unit s_type setIsDragging].
    destruct (_ || _); [done|]. by apply invariant_for_of_files.
  - destruct (_ && _); [|done]. by apply invariant_addToQueue.
  - destruct (removable id s); [|done]. by apply invariant_filter.
  - unfold upload_disabled.
    destruct (bool_decide (queue s = [])); [done|].
    destruct (isGlobalUploading s) eqn:Hg; [done|]. cbn [orb].
    unfold upload_invariant in Hs.
    destruct (awaited s) as [[item rest]|]; [destruct Hs; congruence|].
    apply next_invariant; [by destruct Hs|done].
  - unfold handleUploadAll_resume, upload_invariant in *.
    destruct (awaited s) as [[item rest]|] eqn:Ha; [|by rewrite Ha].
    destruct Hs as [Hg Hq]. apply next_invariant.
    + destruct o; cbn [queue setQueue accept]; unfold mark;
        apply Forall_fmap; (eapply Forall_impl; [exact Hq|]);
        intros q Hu; cbn [compose];
        (destruct (decide (q_id q = q_id item)); [done|]);
        intros Hs; by apply Hu in Hs.
    + intros _. by destruct o.
  - by apply invariant_filter.
Qed.

Lemma labelled_step s e : all_labelled s → all_labelled (step s e).
Proof.
  intros Hs. destruct e; cbn [UploadQueue.step]; try done.
  - unfold handleManualAdd.
    destruct (truthy (s_unit s)) eqn:Hu; [|done].
    destruct (truthy (s_type s)) eqn:Ht; [|done].
    destruct (_ || _); [done|].
    by apply (labelled_addToQueue id _ s).
  - unfold handleDrop. cbn [s_unit s_type setIsDragging].
    destruct (truthy (s_unit s)) eqn:Hu; [|done].
    destruct (truthy (s_type s)) eqn:Ht; [|done].
    by apply labelled_for_of_files.
  - destruct (truthy (n_unit newItem)) eqn:Hu; [|done].
    destruct (truthy (n_type newItem)) eqn:Ht; [|done].
    by apply labelled_addToQueue.
  - destruct (removable id s); [|done].
    apply labelled_queue; [|done]. apply Forall_filter_keep.
  - destruct (upload_disabled s); [done|].
    apply labelled_next; [|done].
    apply Forall_filter_keep, Hs.
  - unfold handleUploadAll_resume.
    destruct Hs as (Hq & Hd & Ha).
    destruct (awaited s) as [[item rest]|] eqn:Hw;
      [|by split_and!; [..|rewrite Hw]].
    destruct Ha as [Hitem Hrest]. apply labelled_next; [done|].
    destruct o; (split_and!; [| |by cbn; rewrite Hw]).
    + by apply labelled_mark.
    + cbn. apply Forall_app; split; [done|]. by apply Forall_singleton.
    + by apply labelled_mark.
    + done.
  - apply labelled_queue; [|done]. apply Forall_filter_keep.
Qed.

Lemma invariants_run es : ∀ s,
  upload_invariant s ∧ all_labelled s →
  upload_invariant (run es s) ∧ all_labelled (run es s).
Proof.
  induction es as [|e es IH]; intros s [H1 H2]; [done|].
  apply IH. split; [by apply upload_invariant_step|by apply labelled_step].
Qed.

Lemma invariants_init : upload_invariant init ∧ all_labelled init.
Proof. by repeat split. Qed.

(** X27: in every state the upload view can reach, by any sequence of
    events, the upload is marked as running exactly while a call of
    [add] is awaited, and an item is shown as uploading only if it has
    the identifier of the item of that call: when no upload runs, no
    item is left uploading, whatever was added or removed meanwhile. *)
Theorem upload_never_stuck (es : list event) :
  let s := run es init in
  upload_invariant s ∧
  (isGlobalUploading s = true ↔ is_Some (awaited s)) ∧
  (isGlobalUploading s = false →
   Forall (λ q, q_status q ≠ uploading) (queue s)).
Proof.
  intros s. destruct (invariants_run es init invariants_init) as [H _].
  fold s in H. split; [done|]. unfold upload_invariant in H.
  destruct (awaited s) as [[item rest]|]; destruct H as [Hg Hq].
  - split; [by split|]. congruence.
  - split; [|done]. rewrite Hg. split; [done|]. by intros [? ?].
Qed.

(** X28: in every state the upload view can reach, every item of the
    queue and every document that the collection has accepted has a unit
    and a type that are not empty: the manual form and the drop refuse
    to queue without them, and the upload sends what was queued. *)
Theorem uploads_are_labelled (es : list event) :
  let s := run es init in
  Forall labelled (queue s) ∧ Forall labelled_document (documents s).
Proof.
  intros s. destruct (invariants_run es init invariants_init) as [_ H].
  fold s in H. by destruct H as (? & ? & _).
Qed.

End Upload.

Lemma handleUploadAll_batch_witness :
  let s' :=
    run admin_email (UploadAll :: (Settled <$> upload_outcomes))
        upload_sample in
  queue s' = settle upload_outcomes (queue upload_sample) ∧
  documents s'
  = documents upload_sample
    ++ sent admin_email upload_outcomes
         (filter retryable (queue upload_sample)) ∧
  isGlobalUploading s' = false ∧ awaited s' = None.
Proof.
  apply (handleUploadAll_batch admin_email upload_outcomes upload_sample);
    [reflexivity|reflexivity| |reflexivity].
  apply (bool_decide_unpack _); vm_compute; exact I.
Defined.

Lemma upload_all_succeeds_witness :
  let n := length (filter retryable (queue upload_sample)) in
  let s' :=
    run admin_email (UploadAll :: replicate n (Settled (Ok ())))
        upload_sample in
  queue s'
  = (λ q, if decide (retryable q) then with_status success q else q)
      <$> queue upload_sample ∧
  q_error <$> queue s' = q_error <$> queue upload_sample ∧
  documents s'
  = documents upload_sample
    ++ (document_of admin_email <$> filter retryable (queue upload_sample)) ∧
  queue (clearSuccess s')
  = filter (λ q, q_status q = uploading) (queue upload_sample).
Proof.
  apply (upload_all_succeeds admin_email upload_sample);
    [reflexivity|reflexivity|].
  apply (bool_decide_unpack _); vm_compute; exact I.
Defined.

End UploadExtras.
